(** * A shallow embedding of the CPU monitor server

    The development follows [backend/cpu_server.py]: the smoothing sampler
    [CPUMonitor], the registry of connected websockets with
    [broadcast_event], the streaming session [cpu_websocket_handler] and the
    workload control handlers.  It then covers the computations of
    [backend/test_workloads.py] and the data side of the plot of
    [cpu_monitor.py].

    Conventions.
    - Python floats are idealised as rationals ([Q]); [round(x, 1)] is
      rounding to the nearest tenth, ties to even.
    - A coroutine or handler is a computation [M A] over the module-level
      state of the server ([world]).  Everything the program does to the
      outside (frames written to a socket, lines printed, threads started,
      sleeps) is appended to the [trace] of the world, oldest first.
    - What the outside does to the program (results of the psutil calls,
      state of a connection, clock) is an explicit argument of the
      computation that consumes it.
    - A computation is run without interleaving other coroutines at its
      suspension points. *)

From Stdlib Require Import QArith Qround Lqa ZArith Lia String.
From Stdlib Require Import Sorted.
From stdpp Require Import base list gmap sets strings pretty.

Local Open Scope Q_scope.

#[local] Set Warnings "-clear-no-such-hyp".

(** ** Python built-ins on rationals *)

Module Py.

(** [sum(xs)]: starts from [0] and adds from the left. *)
Definition sum (xs : list Q) : Q := fold_left Qplus xs 0.

(** [min(a, b)] returns [a] unless [b < a]. *)
Definition min (a b : Q) : Q := if Qlt_le_dec b a then b else a.

(** [max(a, b)] returns [a] unless [b > a]. *)
Definition max (a b : Q) : Q := if Qlt_le_dec a b then b else a.

(** Nearest integer, ties to the even one. *)
Definition round_half_even (x : Q) : Z :=
  let f := Qfloor x in
  match Qcompare (x - inject_Z f) (1 # 2) with
  | Lt => f
  | Gt => (f + 1)%Z
  | Eq => if Z.even f then f else (f + 1)%Z
  end.

(** [round(x, 1)]. *)
Definition round1 (x : Q) : Q := round_half_even (x * 10) # 10.

(** [range(n)] and [zip]. *)
Definition range (n : nat) : list nat := seq 0 n.
Definition zip {A B} (xs : list A) (ys : list B) : list (A * B) := combine xs ys.

(** An [int] used in float arithmetic. *)
Definition float_of_nat (n : nat) : Q := inject_Z (Z.of_nat n).

End Py.

(** ** Values exchanged with the outside *)

#[local] Set Warnings "-register-all".

(** JSON-serialisable Python values; a [dict] keeps its insertion order. *)
Inductive json :=
| JNone
| JBool (b : bool)
| JInt (z : Z)
| JFloat (q : Q)
| JStr (s : string)
| JList (items : list json)
| JDict (items : list (string * json)).

(** A raised [Exception]; [str_of e] is [str(e)]. *)
Inductive exn := Exception (msg : string).

Definition str_of (e : exn) : string := let 'Exception msg := e in msg.

(** Result of a call into the operating system or a library. *)
Inductive result (A : Type) :=
| Ok (a : A)
| Err (e : exn).
Arguments Ok {A} a.
Arguments Err {A} e.

(** Identity of a [WebSocketResponse] object. *)
Definition handle := positive.

(** State of a connection as the server can observe it: [ws.closed] is
    true on [Closed]; [ws.send_json] raises on [Broken]. *)
Inductive link := Open | Closed | Broken.

Definition closed (l : link) : bool :=
  match l with Closed => true | _ => false end.

#[global] Instance link_eq_dec : EqDecision link.
Proof. solve_decision. Defined.

Record thread := Thread { target : string; daemon : bool }.

(** What the server does to the outside, and its calls on the shared set
    [connected_websockets]. *)
Inductive effect :=
| Stdout (line : string)
| SendJson (ws : handle) (data : json)
| Sleep (seconds : Q)
| ThreadStart (t : thread)
| SetAdd (ws : handle)
| SetDiscard (ws : handle).

(** ** Module-level state of the server *)

(** [self.buffer_size], set once in [__init__]. *)
Definition buffer_size : nat := 10.

Record CPUMonitor := Monitor {
  current_cpu : Q;
  cpu_history : list Q
}.

Record world := World {
  cpu_monitor : CPUMonitor;
  connected_websockets : gset handle;
  workload_thread : option thread;
  workload_active : bool;
  (** [test_workloads] is in [sys.modules] *)
  test_workloads_loaded : bool;
  (** [test_workloads.note_callback] has been assigned *)
  note_callback : bool;
  trace : list effect
}.

Definition set_cpu_monitor (m : CPUMonitor) (w : world) : world :=
  World m (connected_websockets w) (workload_thread w) (workload_active w)
        (test_workloads_loaded w) (note_callback w) (trace w).
Definition set_connected_websockets (s : gset handle) (w : world) : world :=
  World (cpu_monitor w) s (workload_thread w) (workload_active w)
        (test_workloads_loaded w) (note_callback w) (trace w).
Definition set_workload_thread (t : option thread) (w : world) : world :=
  World (cpu_monitor w) (connected_websockets w) t (workload_active w)
        (test_workloads_loaded w) (note_callback w) (trace w).
Definition set_workload_active (b : bool) (w : world) : world :=
  World (cpu_monitor w) (connected_websockets w) (workload_thread w) b
        (test_workloads_loaded w) (note_callback w) (trace w).
Definition set_test_workloads_loaded (b : bool) (w : world) : world :=
  World (cpu_monitor w) (connected_websockets w) (workload_thread w) (workload_active w)
        b (note_callback w) (trace w).
Definition set_note_callback (b : bool) (w : world) : world :=
  World (cpu_monitor w) (connected_websockets w) (workload_thread w) (workload_active w)
        (test_workloads_loaded w) b (trace w).
Definition emit (e : effect) (w : world) : world :=
  World (cpu_monitor w) (connected_websockets w) (workload_thread w) (workload_active w)
        (test_workloads_loaded w) (note_callback w) (trace w ++ [e]).

(** The state right after the module is loaded:
    [cpu_monitor = CPUMonitor()], [connected_websockets = set()],
    [workload_thread = None], [workload_active = False]. *)
Definition initial_world : world :=
  World (Monitor 0 []) ∅ None false false false [].

(** ** Computations *)

(** How a computation stands after a run: it returned, it raised, or it is
    suspended at an [await] waiting for the outside. *)
Inductive outcome (A : Type) :=
| Returns (a : A)
| Raises (e : exn)
| Pending.
Arguments Returns {A} a.
Arguments Raises {A} e.
Arguments Pending {A}.

Definition M (A : Type) : Type := world → outcome A * world.

#[global] Instance M_ret : MRet M := λ A a w, (Returns a, w).

#[global] Instance M_bind : MBind M := λ A B f m w,
  match m w with
  | (Returns a, w') => f a w'
  | (Raises e, w') => (Raises e, w')
  | (Pending, w') => (Pending, w')
  end.

Definition raise {A} (e : exn) : M A := λ w, (Raises e, w).
Definition suspend {A} : M A := λ w, (Pending, w).
Definition gets {A} (f : world → A) : M A := λ w, (Returns (f w), w).
Definition modify (f : world → world) : M unit := λ w, (Returns (), f w).

(** A call to the outside whose result is known. *)
Definition call {A} (r : result A) : M A :=
  match r with Ok a => mret a | Err e => raise e end.

(** [try: body  except Exception as e: handler e]. *)
Definition try_except {A} (body : M A) (handler : exn → M A) : M A := λ w,
  match body w with
  | (Raises e, w') => handler e w'
  | r => r
  end.

(** [try: body  finally: cleanup]; a suspended body has not reached its
    [finally] clause. *)
Definition try_finally {A} (body : M A) (cleanup : M unit) : M A := λ w,
  match body w with
  | (Returns a, w') => (cleanup ;; mret a) w'
  | (Raises e, w') => (cleanup ;; raise e) w'
  | (Pending, w') => (Pending, w')
  end.

(** [for x in xs: body x]. *)
Fixpoint for_each {A} (xs : list A) (body : A → M unit) : M unit :=
  match xs with
  | [] => mret ()
  | x :: xs' => body x ;; for_each xs' body
  end.

Definition print (line : string) : M unit := modify (emit (Stdout line)).
Definition sleep (seconds : Q) : M unit := modify (emit (Sleep seconds)).

(** ** CPUMonitor *)

(** [weights = [1 + (i / self.buffer_size) for i in range(len(self.cpu_history))]] *)
Definition weights (history : list Q) : list Q :=
  map (λ i, 1 + Py.float_of_nat i / Py.float_of_nat buffer_size)
      (Py.range (length history)).

(** [sum(h * w for h, w in zip(self.cpu_history, weights))] *)
Definition weighted_sum (history : list Q) : Q :=
  Py.sum (map (λ hw : Q * Q, fst hw * snd hw) (Py.zip history (weights history))).

(** [a / b] on floats raises when [b] is zero. *)
Definition py_div (a b : Q) : M Q :=
  if Qeq_bool b 0 then raise (Exception "float division by zero") else mret (a / b).

(** [self.cpu_history.append(cpu_percent)] followed by the eviction
    [if len(self.cpu_history) > self.buffer_size: self.cpu_history.pop(0)]. *)
Definition push_reading (cpu_percent : Q) (history : list Q) : list Q :=
  let history := history ++ [cpu_percent] in
  if (buffer_size <? length history)%nat then tail history else history.

Definition get_monitor : M CPUMonitor := gets cpu_monitor.
Definition set_history (h : list Q) : M unit :=
  modify (λ w, set_cpu_monitor (Monitor (current_cpu (cpu_monitor w)) h) w).
Definition set_current_cpu (c : Q) : M unit :=
  modify (λ w, set_cpu_monitor (Monitor c (cpu_history (cpu_monitor w))) w).

(** [CPUMonitor.get_cpu_percent]; [os_cpu] is what
    [psutil.cpu_percent(interval=None)] does in this call. *)
Definition get_cpu_percent (os_cpu : result Q) : M Q :=
  try_except
    (cpu_percent ← call os_cpu;
     self ← get_monitor;
     set_history (push_reading cpu_percent (cpu_history self));;
     self ← get_monitor;
     c ← py_div (weighted_sum (cpu_history self)) (Py.sum (weights (cpu_history self)));
     set_current_cpu c;;
     self ← get_monitor;
     set_current_cpu (Py.max 0 (Py.min 100 (current_cpu self))))
    (λ e, print ("Error reading CPU: " +:+ str_of e));;
  self ← get_monitor;
  mret (Py.round1 (current_cpu self)).

(** ** The registry of connected websockets *)

(** [connected_websockets.add(ws)] *)
Definition registry_add (ws : handle) : M unit :=
  modify (λ w, set_connected_websockets ({[ws]} ∪ connected_websockets w) (emit (SetAdd ws) w)).

(** [connected_websockets.discard(ws)] *)
Definition registry_discard (ws : handle) : M unit :=
  modify (λ w, set_connected_websockets (connected_websockets w ∖ {[ws]}) (emit (SetDiscard ws) w)).

(** [await ws.send_json(data)] on a connection in state [l]. *)
Definition send_json (l : link) (ws : handle) (data : json) : M unit :=
  match l with
  | Open => modify (emit (SendJson ws data))
  | Closed | Broken => raise (Exception "Cannot write to closing transport")
  end.

(** The body of [for ws in clients] in [broadcast_event]; [conn ws] is the
    state of the connection behind [ws] while the broadcast runs. *)
Definition send_or_drop (conn : handle → link) (event : json) (ws : handle) : M unit :=
  try_except
    (if negb (closed (conn ws)) then send_json (conn ws) ws event else mret ())
    (λ e,
       try_except (registry_discard ws) (λ _, mret ());;
       print ("Failed to send event to client: " +:+ str_of e)).

(** [broadcast_event]: the loop runs over a copy of the set taken first. *)
Definition broadcast_event (conn : handle → link) (event : json) : M unit :=
  clients ← gets (λ w, elements (connected_websockets w));
  match clients with
  | [] => mret ()
  | _ => for_each clients (send_or_drop conn event)
  end.

(** ** The streaming session *)

(** What the outside does during one iteration of the streaming loop. *)
Record tick := Tick {
  ws_link : link;
  os_cpu : result Q;
  os_per_cpu : result (list Q);
  os_memory : result Q;
  clock : Q
}.

Definition telemetry (cpu_percent : Q) (per_cpu : list Q) (memory_percent now : Q) : json :=
  JDict [("cpu", JFloat cpu_percent);
         ("per_cpu", JList (map (λ c, JFloat (Py.round1 c)) per_cpu));
         ("memory_percent", JFloat (Py.round1 memory_percent));
         ("timestamp", JFloat now)]%string.

Inductive control := Continue | Break.

(** The body of [while not ws.closed], with its own [try]/[except]. *)
Definition session_step (ws : handle) (t : tick) : M control :=
  try_except
    (cpu_percent ← get_cpu_percent (os_cpu t);
     per_cpu ← call (os_per_cpu t);
     memory_percent ← call (os_memory t);
     send_json (ws_link t) ws (telemetry cpu_percent per_cpu memory_percent (clock t));;
     sleep (15 # 100);;
     mret Continue)
    (λ e,
       print ("Error in WebSocket loop: " +:+ str_of e);;
       sleep (1 # 10);;
       mret Break).

(** [while not ws.closed: ...]; when the outside has nothing more to offer
    the coroutine stays suspended inside the loop. *)
Fixpoint session_loop (ws : handle) (ticks : list tick) : M unit :=
  match ticks with
  | [] => suspend
  | t :: ticks' =>
      if closed (ws_link t) then mret ()
      else
        c ← session_step ws t;
        match c with
        | Continue => session_loop ws ticks'
        | Break => mret ()
        end
  end.

(** [cpu_websocket_handler]; [ws] is the fresh [WebSocketResponse] and
    [handshake] the result of [await ws.prepare(request)]. *)
Definition cpu_websocket_handler (ws : handle) (handshake : result unit)
    (ticks : list tick) : M handle :=
  call handshake;;
  print "Client connected to CPU WebSocket";;
  registry_add ws;;
  try_finally
    (try_except (session_loop ws ticks)
                (λ e, print ("WebSocket error: " +:+ str_of e)))
    (try_except (registry_discard ws) (λ _, mret ());;
     print "Client disconnected from CPU WebSocket");;
  mret ws.

(** The session state machine of the design, read off a run of the handler. *)
Inductive session_state := Connecting | Streaming | SessionClosed.

Definition session_state_of {A} (r : outcome A * world) : session_state :=
  match fst r with
  | Pending => Streaming
  | Returns _ | Raises _ => SessionClosed
  end.

(** A call to the outside that raised. *)
Definition failed {A} (r : result A) : bool :=
  match r with Ok _ => false | Err _ => true end.

(** The iterations that end the streaming loop: the connection is seen
    closed at the loop test, or something raises in the body, which is the
    per-core read, the memory read or the push. *)
Definition leaves_loop (t : tick) : bool :=
  match ws_link t with
  | Closed => true
  | Broken => true
  | Open => failed (os_per_cpu t) || failed (os_memory t)
  end.

(** ** HTTP handlers *)

Record response := Response { body : json; status : Z }.

(** [web.json_response(data, status=200)] *)
Definition json_response (data : json) (status : Z) : response := Response data status.

(** [cpu_http_handler] *)
Definition cpu_http_handler (os_cpu : result Q) (os_per_cpu : result (list Q))
    (os_memory : result Q) : M response :=
  cpu_percent ← get_cpu_percent os_cpu;
  per_cpu ← call os_per_cpu;
  memory_percent ← call os_memory;
  mret (json_response
          (JDict [("cpu", JFloat cpu_percent);
                  ("per_cpu", JList (map (λ c, JFloat (Py.round1 c)) per_cpu));
                  ("memory_percent", JFloat (Py.round1 memory_percent))]%string)
          200).

(** What the Python runtime offers to [start_workload_handler]:
    whether a first [import test_workloads] succeeds and whether a thread
    can be started. *)
Record host := Host {
  importable : bool;
  can_start_thread : bool
}.

(** [import test_workloads]: a module already in [sys.modules] is reused. *)
Definition import_test_workloads (h : host) : M unit :=
  loaded ← gets test_workloads_loaded;
  if loaded : bool then mret ()
  else if importable h then modify (set_test_workloads_loaded true)
  else raise (Exception "No module named 'test_workloads'").

(** The attribute [test_workloads.play_twinkle_twinkle]: the module
    [backend/test_workloads.py] defines no [play_twinkle_twinkle], so the
    lookup raises AttributeError. *)
Definition play_twinkle_twinkle_attr : M string :=
  raise (Exception "module 'test_workloads' has no attribute 'play_twinkle_twinkle'").

(** [workload_thread.start()] *)
Definition thread_start (h : host) (t : thread) : M unit :=
  if can_start_thread h then modify (emit (ThreadStart t))
  else raise (Exception "can't start new thread").

(** [start_workload_handler] *)
Definition start_workload_handler (h : host) : M response :=
  try_except
    (import_test_workloads h;;
     active ← gets workload_active;
     if active : bool then
       mret (json_response (JDict [("error", JStr "Workload already running")]%string) 400)
     else
       modify (set_note_callback true);;
       modify (set_workload_active true);;
       target ← play_twinkle_twinkle_attr;
       modify (set_workload_thread (Some (Thread target true)));;
       thread_start h (Thread target true);;
       mret (json_response (JDict [("status", JStr "Twinkle Twinkle started")]%string) 200))
    (λ e,
       modify (set_workload_active false);;
       mret (json_response (JDict [("error", JStr (str_of e))]%string) 500)).

(** [workload_status_handler] *)
Definition workload_status_handler : M response :=
  active ← gets workload_active;
  mret (json_response (JDict [("active", JBool active)]%string) 200).

(** The states the server passes through: from the initial state, any
    handler may run on any input, and a broadcast may run. *)
Inductive reachable : world → Prop :=
| reachable_initial :
    reachable initial_world
| reachable_start h w :
    reachable w → reachable (start_workload_handler h w).2
| reachable_status w :
    reachable w → reachable (workload_status_handler w).2
| reachable_http os_cpu os_per_cpu os_memory w :
    reachable w → reachable (cpu_http_handler os_cpu os_per_cpu os_memory w).2
| reachable_session ws handshake ticks w :
    reachable w → reachable (cpu_websocket_handler ws handshake ticks w).2
| reachable_broadcast conn event w :
    reachable w → reachable (broadcast_event conn event w).2.

(** ** The weights of the specification *)

(** Section 4.1 of the specification, in its own words: the weight of the
    i-th entry (oldest first) is [1 + i/K]. *)
Definition K : nat := 10.

Definition spec_weight (i : nat) : Q := 1 + Py.float_of_nat i / Py.float_of_nat K.

Fixpoint big_sum (f : nat → Q) (n : nat) : Q :=
  match n with
  | O => 0
  | S n' => big_sum f n' + f n'
  end.

(** ** Running the sampler over a sequence of OS reads *)

(** A utilisation percentage. *)
Definition in_range (x : Q) : Prop := 0 <= x <= 100.

Fixpoint sample_all (reads : list (result Q)) : M (list Q) :=
  match reads with
  | [] => mret []
  | r :: reads' =>
      v ← get_cpu_percent r;
      vs ← sample_all reads';
      mret (v :: vs)
  end.

(** ** Reading traces and responses *)

(** The frames written to [ws], oldest first. *)
Definition sent_to (ws : handle) (tr : list effect) : list json :=
  omap (λ e, match e with
             | SendJson ws' data => if decide (ws' = ws) then Some data else None
             | _ => None
             end) tr.

(** How many times [connected_websockets.discard(ws)] was called. *)
Definition discards_of (ws : handle) (tr : list effect) : nat :=
  length (omap (λ e, match e with
                     | SetDiscard ws' => if decide (ws' = ws) then Some ws' else None
                     | _ => None
                     end) tr).

(** How many threads were started. *)
Definition threads_started (tr : list effect) : nat :=
  length (omap (λ e, match e with ThreadStart t => Some t | _ => None end) tr).

(** What a broadcast of [event] writes to [ws], given the set registered
    when it starts and the state of the connections. *)
Definition delivered (conn : handle → link) (registered : gset handle)
    (event : json) (ws : handle) : list json :=
  if decide (ws ∈ registered ∧ conn ws = Open) then [event] else [].

(** [w'] differs from [w] at most in the registry, the sampler and the
    frames, lines and sleeps of the trace: the workload state is the same
    and no thread was started. *)
Definition same_workload (w w' : world) : Prop :=
  workload_active w' = workload_active w
  ∧ workload_thread w' = workload_thread w
  ∧ test_workloads_loaded w' = test_workloads_loaded w
  ∧ note_callback w' = note_callback w
  ∧ threads_started (trace w') = threads_started (trace w).

(** [frame R m]: running [m] from any state [w] ends in a state related to
    [w] by [R], whatever the outcome. *)
Definition frame {A} (R : world → world → Prop) (m : M A) : Prop :=
  ∀ w, R w (m w).2.

(** ** Reading runs of the sampler and of a session *)

(** The readings of the OS reads that succeeded, in order. *)
Definition successes (reads : list (result Q)) : list Q :=
  omap (λ r, match r with Ok x => Some x | Err _ => None end) reads.

(** The last [n] entries of a list. *)
Definition last_n {A} (n : nat) (l : list A) : list A := drop (length l - n) l.

(** The iterations of a streaming loop that come before the one leaving it. *)
Fixpoint streamed (ticks : list tick) : list tick :=
  match ticks with
  | [] => []
  | t :: ticks' => if leaves_loop t then [] else t :: streamed ticks'
  end.

(** The frame pushed in iteration [t] when the sampler returned [cpu_percent]. *)
Definition tick_frame (cpu_percent : Q) (t : tick) : json :=
  match os_per_cpu t, os_memory t with
  | Ok per_cpu, Ok memory_percent =>
      telemetry cpu_percent per_cpu memory_percent (clock t)
  | _, _ => JNone
  end.

(** * The workloads of [backend/test_workloads.py]

    The random arrays a workload draws are arguments of its model, and a
    workload that returns nothing is modelled by the local state its loops
    leave behind.  Lists are indexed as Python indexes them: an index out of
    range raises, which is [None] here. *)

Module TestWorkloads.

(** [for j in range(start, start + count): s = body(s, j)], stopping at the
    first iteration that raises. *)
Fixpoint for_range {St} (start count : nat) (body : St → nat → option St) (s : St)
    : option St :=
  match count with
  | O => Some s
  | S count' =>
      match body s start with
      | Some s' => for_range (S start) count' body s'
      | None => None
      end
  end.

(** [if arr[j] > arr[j+1]: arr[j], arr[j+1] = arr[j+1], arr[j]] *)
Definition compare_swap (arr : list Z) (j : nat) : option (list Z) :=
  match arr !! j, arr !! (j + 1)%nat with
  | Some a, Some b =>
      if (b <? a)%Z then Some (<[(j + 1)%nat := a]> (<[j := b]> arr)) else Some arr
  | _, _ => None
  end.

(** [bubble_sort_workload]: the array as the two loops leave it. *)
Definition bubble_sort_workload (arr : list Z) : option (list Z) :=
  let n := length arr in
  for_range 0 n (λ arr i, for_range 0 (n - i - 1) compare_swap arr) arr.

(** [range(a, b)] on integers. *)
Definition range (a b : Z) : list Z :=
  map (λ k, (a + Z.of_nat k)%Z) (seq 0 (Z.to_nat (b - a))).

(** [is_prime] of [heavy_computation_workload]; [int(n ** 0.5)] is taken
    to be the integer square root. *)
Definition is_prime (n : Z) : bool :=
  if (n <? 2)%Z then false
  else forallb (λ i, negb (n mod i =? 0)%Z) (range 2 (Z.sqrt n + 1)).

(** [heavy_computation_workload] *)
Definition heavy_computation_workload (iterations : Z) : list Z :=
  foldl (λ primes i, if is_prime i then primes ++ [i] else primes)
        [] (range 0 iterations).

(** [fib] of [fibonacci_workload], on the arguments it is called with. *)
Fixpoint fib (x : nat) : Z :=
  match x with
  | O => 0
  | S x1 =>
      match x1 with
      | O => 1
      | S x2 => fib x1 + fib x2
      end
  end.

(** [fibonacci_workload] *)
Definition fibonacci_workload (n : Z) : list Z :=
  foldl (λ results i, results ++ [fib (Nat.min i 30)]) [] (seq 0 (Z.to_nat n)).

(** One pass of neighbour comparisons from the head of a list: [k]
    comparisons, each leaving the smaller value in front. *)
Fixpoint bubble (k : nat) (l : list Z) : list Z :=
  match k, l with
  | S k', x :: y :: l' => Z.min x y :: bubble k' (Z.max x y :: l')
  | _, _ => l
  end.

(** The cells [(nx, ny)] that [pathfinding_workload] appends to its queue
    for the cell [(x, y)]: the four neighbours that lie on the grid. *)
Definition neighbours (grid_size x y : Z) : list (Z * Z) :=
  filter (λ c, (0 ≤ c.1 < grid_size)%Z ∧ (0 ≤ c.2 < grid_size)%Z)
         (map (λ d : Z * Z, (x + d.1, y + d.2)%Z)
              [(0, 1); (1, 0); (0, -1); (-1, 0)]%Z).

(** [while queue: ...] of [pathfinding_workload], at most [fuel]
    iterations; the result is the set [visited] when the queue is empty. *)
Fixpoint bfs (fuel : nat) (grid_size : Z) (visited : gset (Z * Z))
    (queue : list (Z * Z)) : option (gset (Z * Z)) :=
  match fuel with
  | O => None
  | S fuel' =>
      match queue with
      | [] => Some visited
      | (x, y) :: queue' =>
          if decide ((x, y) ∈ visited) then bfs fuel' grid_size visited queue'
          else bfs fuel' grid_size ({[(x, y)]} ∪ visited)
                   (queue' ++ neighbours grid_size x y)
      end
  end.

(** How a run of [pathfinding_workload] stands after at most [fuel]
    iterations of its loop. *)
Inductive traversal :=
| Done (visited : gset (Z * Z))
| NegativeDimensions
| StillRunning.

(** [pathfinding_workload]: [np.random.rand(grid_size, grid_size)] raises
    on a negative size; otherwise the traversal starts from the queue
    [[(0, 0)]] and an empty visited set. *)
Definition pathfinding_workload (fuel : nat) (grid_size : Z) : traversal :=
  if (grid_size <? 0)%Z then NegativeDimensions
  else match bfs fuel grid_size ∅ [(0, 0)%Z] with
       | Some visited => Done visited
       | None => StillRunning
       end.

(** The cells of a square grid. *)
Definition cells (grid_size : Z) : gset (Z * Z) :=
  list_to_set (x ← range 0 grid_size; y ← range 0 grid_size; [(x, y)]).

(** The work functions a calibrated workload hands to its threads. *)
Inductive busy_loop := busy_loop_light | busy_loop_medium | busy_loop_heavy.

(** What a calibrated workload does, threads numbered in creation order. *)
Inductive action :=
| Say (line : string)
| Start (t : nat) (work : busy_loop)
| Join (t : nat)
| Pause (seconds : Z).

(** [for _ in range(num_threads): t = Thread(...); t.start(); threads.append(t)];
    [can_start t] tells whether [t.start()] succeeds.  The result is the list
    [threads], or [None] when a start raised. *)
Fixpoint start_threads (can_start : nat → bool) (work : busy_loop)
    (next count : nat) (threads : list nat) : list action * option (list nat) :=
  match count with
  | O => ([], Some threads)
  | S count' =>
      if can_start next then
        let '(actions, r) :=
          start_threads can_start work (S next) count' (threads ++ [next]) in
        (Start next work :: actions, r)
      else ([], None)
  end.

(** The common shape of [calibrated_workload_30], [_50], [_70] and [_90]:
    the actions performed, and whether the function returned. *)
Definition calibrated_workload (banner completed : string) (num_threads : nat)
    (work : busy_loop) (can_start : nat → bool) : list action * option unit :=
  let '(starts, r) := start_threads can_start work 0 num_threads [] in
  match r with
  | Some threads =>
      (Say banner :: starts ++ map Join threads ++ [Say completed; Pause 2], Some ())
  | None => (Say banner :: starts, None)
  end.

(** The newline that opens each banner. *)
Definition newline : string := String (Ascii.ascii_of_nat 10) EmptyString.

Definition calibrated_workload_30 :=
  calibrated_workload
    (newline +:+ "[30% TARGET] Running light workload on 2 threads...")
    "  Completed 30% workload" 2 busy_loop_light.
Definition calibrated_workload_50 :=
  calibrated_workload
    (newline +:+ "[50% TARGET] Running medium workload on 4 threads...")
    "  Completed 50% workload" 4 busy_loop_medium.
Definition calibrated_workload_70 :=
  calibrated_workload
    (newline +:+ "[70% TARGET] Running heavy workload on 6 threads...")
    "  Completed 70% workload" 6 busy_loop_heavy.
(** [cpu_count] is what [multiprocessing.cpu_count()] returns. *)
Definition calibrated_workload_90 (cpu_count : nat) :=
  calibrated_workload
    (newline +:+ "[90% TARGET] Running very heavy workload on "
     +:+ pretty cpu_count +:+ " threads...")
    "  Completed 90% workload" cpu_count busy_loop_heavy.

(** The threads started and the threads joined, in order. *)
Definition started (actions : list action) : list nat :=
  omap (λ a, match a with Start t _ => Some t | _ => None end) actions.
Definition joined (actions : list action) : list nat :=
  omap (λ a, match a with Join t => Some t | _ => None end) actions.

(** The first thread whose start fails, among the first [count]. *)
Fixpoint first_failure (can_start : nat → bool) (next count : nat) : option nat :=
  match count with
  | O => None
  | S count' =>
      if can_start next then first_failure can_start (S next) count' else Some next
  end.

End TestWorkloads.

(** * The plot of [cpu_monitor.py]

    The data side of [update]: the three deques and what is handed to the
    two plotted lines.  [np.mean] is the exact mean. *)

Module CpuMonitorPlot.








End CpuMonitorPlot.


(** * Proofs *)

(** ** Running computations *)

(** Unfold the monad down to the state transformer. *)
Ltac run :=
  unfold mbind, mret, M_bind, M_ret, try_except, try_finally, call, raise,
    suspend, gets, modify, print, sleep in *; simpl in *.

Lemma bind_returns {A B} (m : M A) (f : A → M B) w a w' :
  m w = (Returns a, w') → (m ≫= f) w = f a w'.
Proof. intros H. unfold mbind, M_bind. by rewrite H. Qed.

Lemma bind_raises {A B} (m : M A) (f : A → M B) w e w' :
  m w = (Raises e, w') → (m ≫= f) w = (Raises e, w').
Proof. intros H. unfold mbind, M_bind. by rewrite H. Qed.

Lemma bind_pending {A B} (m : M A) (f : A → M B) w w' :
  m w = (Pending, w') → (m ≫= f) w = (Pending, w').
Proof. intros H. unfold mbind, M_bind. by rewrite H. Qed.

(** ** Sums and weights *)

Section Sums.

Lemma sum_snoc xs x : Py.sum (xs ++ [x]) = Py.sum xs + x.
Proof. unfold Py.sum. by rewrite fold_left_app. Qed.

Lemma float_of_nat_nonneg n : 0 <= Py.float_of_nat n.
Proof.
  unfold Py.float_of_nat. change 0 with (inject_Z 0).
  rewrite <- Zle_Qle. lia.
Qed.

Lemma spec_weight_ge_1 i : 1 <= spec_weight i.
Proof.
  unfold spec_weight.
  assert (0 <= Py.float_of_nat i / Py.float_of_nat K).
  { apply Qle_shift_div_l; [reflexivity|].
    rewrite Qmult_0_l. apply float_of_nat_nonneg. }
  lra.
Qed.

Lemma big_sum_weight_lower n : Py.float_of_nat n <= big_sum spec_weight n.
Proof.
  induction n as [|n IH]; simpl.
  - apply Qle_refl.
  - pose proof (spec_weight_ge_1 n) as Hw.
    assert (Py.float_of_nat (S n) == Py.float_of_nat n + 1) as ->.
    { unfold Py.float_of_nat. rewrite Nat2Z.inj_succ, <- Z.add_1_r.
      rewrite inject_Z_plus. reflexivity. }
    lra.
Qed.

Lemma weights_snoc h x :
  weights (h ++ [x]) = weights h ++ [spec_weight (length h)].
Proof.
  unfold weights, Py.range. rewrite length_app. simpl length.
  rewrite Nat.add_1_r, seq_S, map_app. reflexivity.
Qed.

(** The sum of the weights of the code is the indexed sum of the specification. *)
Lemma sum_weights_big_sum h :
  Py.sum (weights h) == big_sum spec_weight (length h).
Proof.
  induction h as [|x h IH] using rev_ind; [reflexivity|].
  rewrite weights_snoc, sum_snoc, length_app, Nat.add_1_r. simpl.
  rewrite IH. reflexivity.
Qed.

Lemma sum_weights_pos h : h ≠ [] → 0 < Py.sum (weights h).
Proof.
  intros Hne. rewrite sum_weights_big_sum.
  eapply Qlt_le_trans; [|apply big_sum_weight_lower].
  unfold Py.float_of_nat. change 0 with (inject_Z 0). rewrite <- Zlt_Qlt.
  destruct h; [done|]. simpl length. lia.
Qed.

End Sums.

(** ** Clamping and rounding *)

Section Rounding.

Lemma clamp_bounds x : 0 <= Py.max 0 (Py.min 100 x) <= 100.
Proof.
  unfold Py.max, Py.min.
  destruct (Qlt_le_dec x 100); destruct (Qlt_le_dec 0 _); lra.
Qed.

Lemma round_half_even_bounds x (n : Z) :
  0 <= x <= inject_Z n → (0 ≤ Py.round_half_even x ≤ n)%Z.
Proof.
  intros [Hlo Hhi]. unfold Py.round_half_even.
  pose proof (Qfloor_le x) as Hfl.
  assert (0 ≤ Qfloor x)%Z as Hf0.
  { rewrite <- (Qfloor_Z 0). by apply Qfloor_resp_le. }
  assert (Qfloor x ≤ n)%Z as Hfn.
  { rewrite <- (Qfloor_Z n). by apply Qfloor_resp_le. }
  assert (inject_Z (Qfloor x) < x → (Qfloor x + 1 ≤ n)%Z) as Hup.
  { intros Hlt. assert (inject_Z (Qfloor x) < inject_Z n) as Hz by lra.
    rewrite <- Zlt_Qlt in Hz. lia. }
  destruct (Qcompare _ _) eqn:Hc.
  - apply Qeq_alt in Hc.
    destruct (Z.even (Qfloor x)); [lia|].
    split; [lia|]. apply Hup. lra.
  - lia.
  - apply Qgt_alt in Hc. split; [lia|]. apply Hup. lra.
Qed.

Lemma round1_bounds x : 0 <= x <= 100 → 0 <= Py.round1 x <= 100.
Proof.
  intros Hx.
  assert (0 ≤ Py.round_half_even (x * 10) ≤ 1000)%Z as [H0 H1].
  { apply round_half_even_bounds. change (inject_Z 1000) with 1000. lra. }
  unfold Py.round1, Qle. simpl. lia.
Qed.

End Rounding.

(** ** One call of the sampler *)

Section Sampler.

Implicit Types (w : world) (e : exn) (reading : Q).

Lemma push_reading_nonempty reading h : push_reading reading h ≠ [].
Proof.
  unfold push_reading.
  destruct (buffer_size <? length (h ++ [reading]))%nat eqn:Hlen.
  - apply Nat.ltb_lt in Hlen. unfold buffer_size in Hlen.
    destruct (h ++ [reading]) as [|? [|? ?]]; simpl in *; [lia|lia|done].
  - by destruct h.
Qed.

(** The state and the value after a failed read. *)
Lemma get_cpu_percent_err e w :
  get_cpu_percent (Err e) w
  = (Returns (Py.round1 (current_cpu (cpu_monitor w))),
     emit (Stdout ("Error reading CPU: " +:+ str_of e)) w).
Proof. reflexivity. Qed.

(** The state and the value after a successful read. *)
Lemma get_cpu_percent_ok reading w :
  let h := push_reading reading (cpu_history (cpu_monitor w)) in
  let c := Py.max 0 (Py.min 100 (weighted_sum h / Py.sum (weights h))) in
  get_cpu_percent (Ok reading) w
  = (Returns (Py.round1 c), set_cpu_monitor (Monitor c h) w).
Proof.
  intros h c. unfold get_cpu_percent, py_div, get_monitor, set_history,
    set_current_cpu. run. fold h.
  destruct (Qeq_bool (Py.sum (weights h)) 0) eqn:Hz.
  - apply Qeq_bool_iff in Hz.
    pose proof (sum_weights_pos h (push_reading_nonempty _ _)). lra.
  - reflexivity.
Qed.

(** Whatever the read does, the call returns the rounded stored value. *)
Lemma get_cpu_percent_returns (r : result Q) w :
  get_cpu_percent r w
  = (Returns (Py.round1 (current_cpu (cpu_monitor (get_cpu_percent r w).2))),
     (get_cpu_percent r w).2).
Proof.
  destruct r as [reading|e].
  - by rewrite get_cpu_percent_ok.
  - by rewrite get_cpu_percent_err.
Qed.

Lemma get_cpu_percent_in_range (r : result Q) w :
  in_range (current_cpu (cpu_monitor w)) →
  in_range (current_cpu (cpu_monitor (get_cpu_percent r w).2)).
Proof.
  intros Hw. destruct r as [reading|e].
  - rewrite get_cpu_percent_ok. simpl. apply clamp_bounds.
  - by rewrite get_cpu_percent_err.
Qed.

Lemma sample_all_in_range reads : ∀ w,
  in_range (current_cpu (cpu_monitor w)) →
  ∃ vs, (sample_all reads w).1 = Returns vs
        ∧ length vs = length reads
        ∧ Forall in_range vs.
Proof.
  induction reads as [|r reads IH]; intros w Hw; simpl.
  - exists []. by repeat split.
  - pose proof (get_cpu_percent_in_range r w Hw) as Hw'.
    destruct (IH _ Hw') as (vs & Hvs & Hlen & Hall).
    rewrite (bind_returns _ _ _ _ _ (get_cpu_percent_returns r w)).
    destruct (sample_all reads _) as [o w''] eqn:Hrun.
    simpl in Hvs. subst o.
    rewrite (bind_returns _ _ _ _ _ Hrun). run.
    eexists. split; [reflexivity|]. split; [simpl; by rewrite Hlen|].
    constructor; [|done]. by apply round1_bounds.
Qed.

(** C6. For every sequence of OS reads, successful or failing, started
    from the initial state (stored value 0.0), every sampling call returns
    a value, and each returned value lies within [0,100]. *)
Theorem smoothed_value_always_in_range (reads : list (result Q)) :
  ∃ vs, (sample_all reads initial_world).1 = Returns vs
        ∧ length vs = length reads
        ∧ Forall (λ v, 0 <= v <= 100) vs.
Proof.
  apply sample_all_in_range. simpl. unfold in_range. lra.
Qed.

(** C7. A sampling call whose OS read fails returns a value (nothing is
    raised), and that value is the one the previous call returned,
    whatever the previous call did; on a fresh monitor it is the initial
    0.0. *)
Theorem failed_read_returns_previous_value (previous : result Q) e w :
  (∃ v, (get_cpu_percent previous w).1 = Returns v
        ∧ (get_cpu_percent (Err e) (get_cpu_percent previous w).2).1 = Returns v)
  ∧ (get_cpu_percent (Err e) initial_world).1 = Returns (0 # 10).
Proof.
  split; [|reflexivity].
  exists (Py.round1 (current_cpu (cpu_monitor (get_cpu_percent previous w).2))).
  split.
  - by rewrite get_cpu_percent_returns at 1.
  - by rewrite get_cpu_percent_err.
Qed.

(** C10. A sampling call whose OS read fails leaves the sampler state as
    it was: the window gets no new reading and the stored smoothed value
    is not modified; two failing calls in a row return equal values. *)
Theorem failed_read_leaves_sampler_unchanged e e' w :
  cpu_monitor (get_cpu_percent (Err e) w).2 = cpu_monitor w
  ∧ (get_cpu_percent (Err e') (get_cpu_percent (Err e) w).2).1
    = (get_cpu_percent (Err e) w).1.
Proof. by rewrite !get_cpu_percent_err. Qed.





End Sampler.

(** ** Frame rules *)

Section Frame.

Context (R : world → world → Prop).
Hypothesis R_refl : ∀ w, R w w.
Hypothesis R_trans : ∀ w1 w2 w3, R w1 w2 → R w2 w3 → R w1 w3.

Lemma frame_ret {A} (a : A) : frame R (mret a).
Proof. intros w. apply R_refl. Qed.

Lemma frame_raise {A} e : frame R (raise e : M A).
Proof. intros w. apply R_refl. Qed.

Lemma frame_suspend {A} : frame R (suspend : M A).
Proof. intros w. apply R_refl. Qed.

Lemma frame_gets {A} (f : world → A) : frame R (gets f).
Proof. intros w. apply R_refl. Qed.

Lemma frame_call {A} (r : result A) : frame R (call r).
Proof. destruct r; intros w; apply R_refl. Qed.

Lemma frame_modify f : (∀ w, R w (f w)) → frame R (modify f).
Proof. intros Hf w. apply Hf. Qed.

Lemma frame_bind {A B} (m : M A) (f : A → M B) :
  frame R m → (∀ a, frame R (f a)) → frame R (m ≫= f).
Proof.
  intros Hm Hf w. unfold mbind, M_bind. specialize (Hm w).
  destruct (m w) as [[a|e|] w1]; simpl in *; [|done..].
  eapply R_trans; [done|]. apply Hf.
Qed.

Lemma frame_try_except {A} (m : M A) (h : exn → M A) :
  frame R m → (∀ e, frame R (h e)) → frame R (try_except m h).
Proof.
  intros Hm Hh w. unfold try_except. specialize (Hm w).
  destruct (m w) as [[a|e|] w1]; simpl in *; [done| |done].
  eapply R_trans; [done|]. apply Hh.
Qed.

Lemma frame_try_finally {A} (m : M A) (c : M unit) :
  frame R m → frame R c → frame R (try_finally m c).
Proof.
  intros Hm Hc w. unfold try_finally. specialize (Hm w).
  destruct (m w) as [[a|e|] w1]; simpl in *; [| |done].
  - eapply R_trans; [done|]. by apply frame_bind; [|intros; apply frame_ret].
  - eapply R_trans; [done|]. by apply frame_bind; [|intros; apply frame_raise].
Qed.

Lemma frame_for_each {A} (xs : list A) (body : A → M unit) :
  (∀ x, frame R (body x)) → frame R (for_each xs body).
Proof.
  intros Hbody. induction xs as [|x xs IH]; simpl.
  - apply frame_ret.
  - by apply frame_bind.
Qed.

End Frame.

(** ** The workload state is out of reach of the sampler and the registry *)

Lemma same_workload_refl w : same_workload w w.
Proof. by repeat split. Qed.

Lemma same_workload_trans w1 w2 w3 :
  same_workload w1 w2 → same_workload w2 w3 → same_workload w1 w3.
Proof.
  unfold same_workload. intros (?&?&?&?&?) (?&?&?&?&?).
  repeat split; congruence.
Qed.

Lemma threads_started_snoc tr e :
  threads_started (tr ++ [e])
  = (threads_started tr + match e with ThreadStart _ => 1 | _ => 0 end)%nat.
Proof.
  unfold threads_started. rewrite omap_app, length_app.
  by destruct e.
Qed.

Lemma same_workload_emit e w :
  (∀ t, e ≠ ThreadStart t) → same_workload w (emit e w).
Proof.
  intros He. repeat split. simpl. rewrite threads_started_snoc.
  destruct e; try lia. by destruct (He t).
Qed.

(** One rule of the frame calculus, instantiated at [same_workload]. *)
Ltac frame_modify :=
  apply frame_modify; intros ?;
  first
    [ by apply same_workload_emit
    | by repeat split
    | repeat split; simpl; by rewrite threads_started_snoc, Nat.add_0_r ].

Ltac frame_step :=
  lazymatch goal with
  | |- frame _ (mret _) => apply frame_ret, same_workload_refl
  | |- frame _ (raise _) => apply frame_raise, same_workload_refl
  | |- frame _ suspend => apply frame_suspend, same_workload_refl
  | |- frame _ (gets _) => apply frame_gets, same_workload_refl
  | |- frame _ (call _) => apply frame_call, same_workload_refl
  | |- frame _ (modify _) => frame_modify
  | |- frame _ (_ ≫= _) =>
      apply frame_bind; [exact same_workload_trans| |intros ?]
  | |- frame _ (try_except _ _) =>
      apply frame_try_except; [exact same_workload_trans| |intros ?]
  | |- frame _ (try_finally _ _) =>
      apply frame_try_finally;
      [exact same_workload_refl|exact same_workload_trans| |]
  | |- frame _ (for_each _ _) =>
      apply frame_for_each;
      [exact same_workload_refl|exact same_workload_trans|intros ?]
  | |- frame _ (if ?b then _ else _) => destruct b
  | |- frame _ (match ?x with _ => _ end) => destruct x
  end.

Lemma frame_print line : frame same_workload (print line).
Proof. unfold print. frame_modify. Qed.

Lemma frame_sleep s : frame same_workload (sleep s).
Proof. unfold sleep. frame_modify. Qed.

Lemma frame_registry_add ws : frame same_workload (registry_add ws).
Proof. unfold registry_add. frame_modify. Qed.

Lemma frame_registry_discard ws : frame same_workload (registry_discard ws).
Proof. unfold registry_discard. frame_modify. Qed.

Lemma frame_send_json l ws data : frame same_workload (send_json l ws data).
Proof. unfold send_json. repeat frame_step. Qed.

Lemma frame_get_cpu_percent r : frame same_workload (get_cpu_percent r).
Proof.
  intros w. destruct r as [reading|e].
  - rewrite get_cpu_percent_ok. by repeat split.
  - rewrite get_cpu_percent_err. by apply same_workload_emit.
Qed.

Lemma frame_send_or_drop conn event ws :
  frame same_workload (send_or_drop conn event ws).
Proof.
  unfold send_or_drop.
  repeat first [ apply frame_send_json | apply frame_registry_discard
               | apply frame_print | frame_step ].
Qed.

Lemma frame_broadcast_event conn event :
  frame same_workload (broadcast_event conn event).
Proof.
  unfold broadcast_event.
  repeat first [ apply frame_send_or_drop | frame_step ].
Qed.

(** ** Broadcast *)

Section Broadcast.

Context (conn : handle → link) (event : json).

Lemma sent_to_snoc ws tr e :
  sent_to ws (tr ++ [e]) = sent_to ws tr ++ sent_to ws [e].
Proof. apply omap_app. Qed.

Lemma send_or_drop_open ws w :
  conn ws = Open →
  send_or_drop conn event ws w = (Returns (), emit (SendJson ws event) w).
Proof. intros H. unfold send_or_drop. rewrite H. reflexivity. Qed.

Lemma send_or_drop_closed ws w :
  conn ws = Closed → send_or_drop conn event ws w = (Returns (), w).
Proof. intros H. unfold send_or_drop. rewrite H. reflexivity. Qed.

Lemma send_or_drop_broken ws w :
  conn ws = Broken →
  send_or_drop conn event ws w
  = (Returns (),
     emit (Stdout "Failed to send event to client: Cannot write to closing transport")
       (set_connected_websockets (connected_websockets w ∖ {[ws]})
          (emit (SetDiscard ws) w))).
Proof. intros H. unfold send_or_drop. rewrite H. reflexivity. Qed.

(** The loop over a duplicate-free copy of the registered set. *)
Lemma for_each_send_or_drop clients :
  NoDup clients → ∀ w, ∃ w',
    for_each clients (send_or_drop conn event) w = (Returns (), w')
    ∧ connected_websockets w'
      = connected_websockets w
        ∖ list_to_set (filter (λ ws, conn ws = Broken) clients)
    ∧ ∀ ws, sent_to ws (trace w')
            = sent_to ws (trace w)
              ++ (if decide (ws ∈ clients ∧ conn ws = Open) then [event] else []).
Proof.
  induction 1 as [|c clients Hc Hnd IH]; intros w.
  - exists w. split; [done|]. split; [set_solver|].
    intros ws. rewrite decide_False by set_solver. by rewrite app_nil_r.
  - simpl for_each. destruct (conn c) eqn:Hlink.
    + destruct (IH (emit (SendJson c event) w)) as (w' & Hrun & Hreg & Hsent).
      exists w'. rewrite (bind_returns _ _ _ _ _ (send_or_drop_open c w Hlink)).
      split; [done|]. split.
      * rewrite Hreg. simpl. rewrite filter_cons_False by congruence. done.
      * intros ws. rewrite Hsent. simpl trace. rewrite sent_to_snoc. simpl.
        destruct (decide (c = ws)) as [->|Hne].
        -- rewrite decide_False by (intros [? ?]; done).
           rewrite decide_True by (split; [left|done]).
           by rewrite app_nil_r.
        -- rewrite app_nil_r. f_equal.
           destruct (decide (ws ∈ clients ∧ conn ws = Open)) as [[? ?]|Hn].
           ++ rewrite decide_True; [done|]. split; [by right|done].
           ++ rewrite decide_False; [done|].
              intros [[->|?]%elem_of_cons ?]; [done|]. by apply Hn.
    + destruct (IH w) as (w' & Hrun & Hreg & Hsent).
      exists w'. rewrite (bind_returns _ _ _ _ _ (send_or_drop_closed c w Hlink)).
      split; [done|]. split.
      * rewrite Hreg. rewrite filter_cons_False by congruence. done.
      * intros ws. rewrite Hsent. f_equal.
        destruct (decide (ws ∈ clients ∧ conn ws = Open)) as [[? ?]|Hn].
        -- rewrite decide_True; [done|]. split; [by right|done].
        -- rewrite decide_False; [done|].
           intros [[->|?]%elem_of_cons ?]; [congruence|]. by apply Hn.
    + edestruct IH as (w' & Hrun & Hreg & Hsent).
      exists w'. rewrite (bind_returns _ _ _ _ _ (send_or_drop_broken c w Hlink)).
      split; [exact Hrun|]. split.
      * rewrite Hreg. simpl. rewrite filter_cons_True by done.
        rewrite list_to_set_cons. set_solver.
      * intros ws. rewrite Hsent. simpl trace.
        rewrite !sent_to_snoc. simpl. rewrite !app_nil_r. f_equal.
        destruct (decide (ws ∈ clients ∧ conn ws = Open)) as [[? ?]|Hn].
        -- rewrite decide_True; [done|]. split; [by right|done].
        -- rewrite decide_False; [done|].
           intros [[->|?]%elem_of_cons ?]; [congruence|]. by apply Hn.
Qed.

Lemma broadcast_event_unfold w :
  broadcast_event conn event w
  = for_each (elements (connected_websockets w)) (send_or_drop conn event) w.
Proof.
  unfold broadcast_event. run.
  by destruct (elements (connected_websockets w)).
Qed.

(** What one broadcast does. *)
Lemma broadcast_event_spec w :
  ∃ w', broadcast_event conn event w = (Returns (), w')
        ∧ connected_websockets w'
          = filter (λ ws, conn ws ≠ Broken) (connected_websockets w)
        ∧ ∀ ws, sent_to ws (trace w')
                = sent_to ws (trace w)
                  ++ delivered conn (connected_websockets w) event ws.
Proof.
  rewrite broadcast_event_unfold.
  destruct (for_each_send_or_drop _ (NoDup_elements (connected_websockets w)) w)
    as (w' & Hrun & Hreg & Hsent).
  exists w'. split; [done|]. split.
  - rewrite Hreg. apply set_eq. intros ws.
    rewrite elem_of_difference, elem_of_list_to_set, list_elem_of_filter,
      elem_of_filter, elem_of_elements.
    destruct (decide (conn ws = Broken)); naive_solver.
  - intros ws. rewrite Hsent. unfold delivered. f_equal.
    destruct (decide (ws ∈ connected_websockets w ∧ conn ws = Open)) as [[? ?]|Hn].
    + rewrite decide_True; [done|]. by rewrite elem_of_elements.
    + rewrite decide_False; [done|]. by rewrite elem_of_elements.
Qed.

(** C1, amended. Whatever the registered set and the event, a broadcast
    returns normally (a failed delivery is never raised to the caller);
    it writes the event once to every registered subscriber whose
    connection is open and nothing to anyone else; a subscriber whose send
    raises is unregistered, every other registration is kept, that of a
    subscriber observed closed included (it is skipped, not removed); on
    an empty registry the broadcast changes nothing. *)
Theorem broadcast_isolates_failures w :
  let r := broadcast_event conn event w in
  r.1 = Returns ()
  ∧ connected_websockets r.2
    = filter (λ ws, conn ws ≠ Broken) (connected_websockets w)
  ∧ (∀ ws, sent_to ws (trace r.2)
           = sent_to ws (trace w)
             ++ (if decide (ws ∈ connected_websockets w ∧ conn ws = Open)
                 then [event] else []))
  ∧ broadcast_event conn event (set_connected_websockets ∅ w)
    = (Returns (), set_connected_websockets ∅ w).
Proof.
  destruct (broadcast_event_spec w) as (w' & Hrun & Hreg & Hsent).
  simpl. rewrite Hrun. simpl. repeat split; try done.
Qed.

End Broadcast.

(** C1, as stated, fails: a registered subscriber whose connection is
    closed cannot be delivered to, yet the broadcast leaves it registered
    (here subscriber 1, next to the open subscriber 2 who gets the event). *)
Lemma closed_subscriber_stays_registered :
  let conn := λ ws : handle, if decide (ws = 1%positive) then Closed else Open in
  let w := set_connected_websockets {[1%positive; 2%positive]} initial_world in
  let r := broadcast_event conn (JStr "note_start") w in
  1%positive ∈ connected_websockets w
  ∧ conn 1%positive = Closed
  ∧ r.1 = Returns ()
  ∧ sent_to 1%positive (trace r.2) = []
  ∧ sent_to 2%positive (trace r.2) = [JStr "note_start"]
  ∧ 1%positive ∈ connected_websockets r.2.
Proof.
  intros conn w r.
  destruct (broadcast_event_spec conn (JStr "note_start") w)
    as (w' & Hrun & Hreg & Hsent).
  subst r. rewrite Hrun. simpl.
  split; [set_solver|]. split; [done|]. split; [done|].
  rewrite !Hsent, Hreg. unfold delivered. simpl.
  split; [|split].
  - by rewrite decide_False by (intros [_ ?]; done).
  - rewrite decide_True; [done|]. split; [set_solver|done].
  - apply elem_of_filter. split; [done|set_solver].
Qed.

(** ** The streaming session *)

Section Session.

Context (ws : handle).

Lemma discards_of_snoc ws' tr e :
  discards_of ws' (tr ++ [e])
  = (discards_of ws' tr
     + match e with
       | SetDiscard x => if decide (x = ws') then 1 else 0
       | _ => 0
       end)%nat.
Proof.
  unfold discards_of. rewrite omap_app, length_app. f_equal.
  destruct e; try done. simpl. by destruct (decide _).
Qed.

(** The sampler touches neither the registry nor the calls on it. *)
Lemma get_cpu_percent_registry (r : result Q) w :
  connected_websockets (get_cpu_percent r w).2 = connected_websockets w
  ∧ discards_of ws (trace (get_cpu_percent r w).2) = discards_of ws (trace w).
Proof.
  destruct r as [reading|e].
  - by rewrite get_cpu_percent_ok.
  - rewrite get_cpu_percent_err. simpl.
    by rewrite discards_of_snoc, Nat.add_0_r.
Qed.

(** One iteration of the loop body after the loop test: it never raises;
    it asks for the next iteration exactly when the per-core read, the
    memory read and the push all succeed. *)
Lemma session_step_spec t w :
  ∃ w', session_step ws t w
        = (Returns (if leaves_loop t then Break else Continue), w')
        ∧ connected_websockets w' = connected_websockets w
        ∧ discards_of ws (trace w') = discards_of ws (trace w).
Proof.
  unfold session_step, try_except.
  rewrite (bind_returns _ _ _ _ _ (get_cpu_percent_returns (os_cpu t) w)).
  destruct (get_cpu_percent_registry (os_cpu t) w) as [Hreg Hdis].
  set (w1 := (get_cpu_percent (os_cpu t) w).2) in *. clearbody w1.
  unfold leaves_loop.
  destruct (os_per_cpu t) as [per_cpu|e1], (os_memory t) as [mem|e2],
    (ws_link t); run;
    (eexists; split; [reflexivity|]; simpl;
     by rewrite ?discards_of_snoc, ?Nat.add_0_r).
Qed.

Lemma session_loop_spec ticks : ∀ w,
  ∃ w', session_loop ws ticks w
        = ((if existsb leaves_loop ticks then Returns () else Pending), w')
        ∧ connected_websockets w' = connected_websockets w
        ∧ discards_of ws (trace w') = discards_of ws (trace w).
Proof.
  induction ticks as [|t ticks IH]; intros w; simpl.
  - by exists w.
  - destruct (closed (ws_link t)) eqn:Hclosed.
    + exists w. unfold leaves_loop. by destruct (ws_link t).
    + destruct (session_step_spec t w) as (w1 & Hstep & Hreg1 & Hdis1).
      rewrite (bind_returns _ _ _ _ _ Hstep).
      destruct (leaves_loop t); simpl.
      * by exists w1.
      * destruct (IH w1) as (w2 & Hloop & Hreg2 & Hdis2).
        exists w2. rewrite Hloop. repeat split; congruence.
Qed.

(** The handler after a successful handshake: the outcome, the registry
    and the count of discards of [ws]. *)
Lemma cpu_websocket_handler_spec ticks w :
  ∃ w', cpu_websocket_handler ws (Ok ()) ticks w
        = ((if existsb leaves_loop ticks then Returns ws else Pending), w')
        ∧ (if existsb leaves_loop ticks
           then connected_websockets w' = connected_websockets w ∖ {[ws]}
                ∧ discards_of ws (trace w') = S (discards_of ws (trace w))
           else connected_websockets w' = {[ws]} ∪ connected_websockets w
                ∧ discards_of ws (trace w') = discards_of ws (trace w)).
Proof.
  unfold cpu_websocket_handler, registry_add, registry_discard. run.
  match goal with |- context [session_loop ws ticks ?w0] =>
    destruct (session_loop_spec ticks w0) as (w1 & Hloop & Hreg & Hdis)
  end.
  rewrite Hloop. simpl in Hreg, Hdis.
  rewrite !discards_of_snoc, !Nat.add_0_r in Hdis.
  destruct (existsb leaves_loop ticks); simpl; eexists; (split; [reflexivity|]).
  - simpl. rewrite !discards_of_snoc, Hreg, Hdis.
    rewrite decide_True by done. simpl.
    split; [set_solver|lia].
  - done.
Qed.

(** C2, amended. After the handshake the session is closed exactly when
    some iteration leaves the loop: the connection is observed closed at
    the loop test, the push fails, or a single per-core or memory read
    fails. A failing read of the aggregate utilisation never appears among
    these conditions: the sampler absorbs it, once or repeatedly. *)
Theorem session_closes_on_first_failure ticks w :
  session_state_of (cpu_websocket_handler ws (Ok ()) ticks w)
  = if existsb leaves_loop ticks then SessionClosed else Streaming.
Proof.
  destruct (cpu_websocket_handler_spec ticks w) as (w' & Hrun & _).
  rewrite Hrun. unfold session_state_of. simpl.
  by destruct (existsb leaves_loop ticks).
Qed.

(** C8. A streaming session that has terminated, on whichever exit path,
    returned its handle, called discard on the registry for that handle
    exactly once, and left a registry that does not hold the handle. *)
Theorem session_unregisters_once ticks w :
  let r := cpu_websocket_handler ws (Ok ()) ticks w in
  session_state_of r = SessionClosed →
  r.1 = Returns ws
  ∧ (ws ∉ connected_websockets r.2)
  ∧ (discards_of ws (trace r.2) = S (discards_of ws (trace w))).
Proof.
  intros r. subst r.
  destruct (cpu_websocket_handler_spec ticks w) as (w' & Hrun & Hpost).
  rewrite Hrun. unfold session_state_of. simpl.
  destruct (existsb leaves_loop ticks); [|done].
  intros _. destruct Hpost as [Hreg Hdis].
  split; [done|]. split; [|done]. rewrite Hreg. set_solver.
Qed.

End Session.

Lemma session_unregisters_once_witness :
  let r := cpu_websocket_handler 1%positive (Ok ())
             [Tick Open (Ok 50) (Ok [40; 60]) (Ok 30) 1;
              Tick Closed (Ok 50) (Ok [40; 60]) (Ok 30) 2] initial_world in
  session_state_of r = SessionClosed
  ∧ r.1 = Returns 1%positive
  ∧ (1%positive ∉ connected_websockets r.2)
  ∧ (discards_of 1%positive (trace r.2) = 1%nat).
Proof.
  intros r.
  assert (session_state_of r = SessionClosed) as Hclosed by reflexivity.
  split; [exact Hclosed|].
  exact (session_unregisters_once 1%positive _ initial_world Hclosed).
Defined.

(** C2, as stated, fails: the connection stays open, every push so far
    succeeded and the per-core read fails once, in the second iteration,
    after a first iteration without any failure; the session is closed. *)
Lemma single_read_error_closes_session :
  let good := Tick Open (Ok 50) (Ok [40; 60]) (Ok 30) 1 in
  let bad := Tick Open (Ok 50) (Err (Exception "per-core read failed")) (Ok 30) 2 in
  let r := cpu_websocket_handler 1%positive (Ok ()) [good; bad] initial_world in
  session_state_of r = SessionClosed
  ∧ closed (ws_link good) = false
  ∧ closed (ws_link bad) = false
  ∧ length (sent_to 1%positive (trace r.2)) = 1%nat
  ∧ failed (os_cpu good) = false ∧ failed (os_per_cpu good) = false
  ∧ failed (os_memory good) = false
  ∧ failed (os_cpu bad) = false ∧ failed (os_memory bad) = false.
Proof.
  intros good bad r.
  assert (r.1 = Returns 1%positive) as Hr by reflexivity.
  split; [unfold session_state_of; by rewrite Hr|].
  repeat split; reflexivity.
Qed.

(** The aggregate read may fail in every iteration: the session goes on. *)
Example repeated_sampler_failure_keeps_streaming :
  let bad := Tick Open (Err (Exception "cpu read failed")) (Ok [40; 60]) (Ok 30) 1 in
  session_state_of (cpu_websocket_handler 1%positive (Ok ()) [bad; bad; bad] initial_world)
  = Streaming.
Proof. reflexivity. Qed.

(** ** Workload control *)

Section Workload.

Implicit Types (h : host) (w : world).

Lemma frame_session_step ws t : frame same_workload (session_step ws t).
Proof.
  unfold session_step.
  repeat first [ apply frame_get_cpu_percent | apply frame_send_json
               | apply frame_print | apply frame_sleep | frame_step ].
Qed.

Lemma frame_session_loop ws ticks : frame same_workload (session_loop ws ticks).
Proof.
  induction ticks as [|t ticks IH]; simpl;
    repeat first [ apply frame_session_step | apply IH | frame_step ].
Qed.

Lemma frame_cpu_websocket_handler ws handshake ticks :
  frame same_workload (cpu_websocket_handler ws handshake ticks).
Proof.
  unfold cpu_websocket_handler.
  repeat first [ apply frame_session_loop | apply frame_registry_add
               | apply frame_registry_discard | apply frame_print | frame_step ].
Qed.

Lemma frame_cpu_http_handler os_cpu os_per_cpu os_memory :
  frame same_workload (cpu_http_handler os_cpu os_per_cpu os_memory).
Proof.
  unfold cpu_http_handler.
  repeat first [ apply frame_get_cpu_percent | frame_step ].
Qed.

Lemma frame_workload_status_handler : frame same_workload workload_status_handler.
Proof. unfold workload_status_handler. repeat frame_step. Qed.

(** The three ways through [start_workload_handler]: the import fails, a
    workload is active, or the lookup of the thread target raises. *)
Lemma start_workload_handler_cases h w :
  start_workload_handler h w
  = if test_workloads_loaded w || importable h then
      if workload_active w then
        (Returns (json_response
           (JDict [("error", JStr "Workload already running")]) 400),
         set_test_workloads_loaded true w)
      else
        (Returns (json_response
           (JDict [("error",
                    JStr "module 'test_workloads' has no attribute 'play_twinkle_twinkle'")])
           500),
         set_workload_active false
           (set_note_callback true (set_test_workloads_loaded true w)))
    else
      (Returns (json_response
         (JDict [("error", JStr "No module named 'test_workloads'")]) 500),
       set_workload_active false w).
Proof.
  destruct w as [mon reg thr active loaded cb tr], h as [imp can].
  by destruct loaded, imp, active.
Qed.

(** A start request never leaves the flag set, records no thread and
    starts none. *)
Lemma start_workload_handler_idle h w :
  workload_active w = false →
  workload_active (start_workload_handler h w).2 = false
  ∧ workload_thread (start_workload_handler h w).2 = workload_thread w
  ∧ trace (start_workload_handler h w).2 = trace w
  ∧ ∃ msg, (start_workload_handler h w).1
           = Returns (json_response (JDict [("error", JStr msg)]) 500).
Proof.
  intros Hidle. rewrite start_workload_handler_cases, Hidle.
  destruct (test_workloads_loaded w || importable h); simpl;
    repeat split; by eexists.
Qed.

(** No state the server reaches has an active workload, a recorded thread
    or a started thread. *)
Lemma reachable_idle w :
  reachable w →
  workload_active w = false
  ∧ workload_thread w = None
  ∧ threads_started (trace w) = 0%nat.
Proof.
  induction 1 as [|h w Hw IH|w Hw IH|a b c w Hw IH|ws hs ticks w Hw IH
                  |conn event w Hw IH].
  - done.
  - destruct IH as (Hidle & Hthread & Hnone).
    destruct (start_workload_handler_idle h w Hidle) as (-> & -> & -> & _).
    done.
  - destruct (frame_workload_status_handler w) as (-> & -> & _ & _ & ->). done.
  - destruct (frame_cpu_http_handler a b c w) as (-> & -> & _ & _ & ->). done.
  - destruct (frame_cpu_websocket_handler ws hs ticks w) as (-> & -> & _ & _ & ->).
    done.
  - destruct (frame_broadcast_event conn event w) as (-> & -> & _ & _ & ->). done.
Qed.

(** C9. What the code does on a start request that finds the flag false,
    against the claim that it sets the flag, launches the background unit
    and answers {status: string}: whatever the runtime offers, the request
    is answered 500 {error: string}, the flag is false afterwards, no
    thread object is recorded and no thread is started. On a fresh server
    whose import succeeds the error is the AttributeError of the lookup of
    test_workloads.play_twinkle_twinkle, which the module does not
    define. *)
Theorem start_request_is_answered_500 h w :
  let r := start_workload_handler h (set_workload_active false w) in
  (∃ msg, r.1 = Returns (json_response (JDict [("error", JStr msg)]) 500))
  ∧ workload_active r.2 = false
  ∧ workload_thread r.2 = workload_thread w
  ∧ threads_started (trace r.2) = threads_started (trace w)
  ∧ (start_workload_handler (Host true true) initial_world).1
    = Returns (json_response
        (JDict [("error",
                 JStr "module 'test_workloads' has no attribute 'play_twinkle_twinkle'")])
        500).
Proof.
  destruct (start_workload_handler_idle h (set_workload_active false w) eq_refl)
    as (Hidle & Hthread & Htrace & Hmsg).
  simpl. rewrite Htrace. by repeat split.
Qed.

(** C3. What the code does, against the claim that a started workload
    completes, resets the flag and lets a later start succeed: in every
    state the server can reach no workload has been started (no thread
    started, none recorded), the flag is false, so the status query answers
    {active: false} without any workload having run, and a start request
    is answered 500 again. *)
Theorem no_workload_ever_runs h w :
  reachable w →
  workload_active w = false
  ∧ workload_thread w = None
  ∧ threads_started (trace w) = 0%nat
  ∧ (workload_status_handler w).1
    = Returns (json_response (JDict [("active", JBool false)]) 200)
  ∧ ∃ msg, (start_workload_handler h w).1
           = Returns (json_response (JDict [("error", JStr msg)]) 500).
Proof.
  intros Hreach. destruct (reachable_idle w Hreach) as (Hidle & Hthread & Hnone).
  destruct (start_workload_handler_idle h w Hidle) as (_ & _ & _ & Hmsg).
  repeat split; try done.
  unfold workload_status_handler. run. by rewrite Hidle.
Qed.

End Workload.

Lemma no_workload_ever_runs_witness :
  let h := Host true true in
  let w := (start_workload_handler h (start_workload_handler h initial_world).2).2 in
  reachable w
  ∧ workload_active w = false
  ∧ workload_thread w = None
  ∧ threads_started (trace w) = 0%nat
  ∧ (workload_status_handler w).1
    = Returns (json_response (JDict [("active", JBool false)]) 200)
  ∧ ∃ msg, (start_workload_handler h w).1
           = Returns (json_response (JDict [("error", JStr msg)]) 500).
Proof.
  intros h w.
  assert (reachable w) as Hreach
    by (do 2 apply reachable_start; apply reachable_initial).
  split; [exact Hreach|].
  exact (no_workload_ever_runs h w Hreach).
Defined.

(** * Further properties of the server *)

(** ** The smoothing window *)

Section Window.

Implicit Types (w : world) (h : list Q).

Lemma last_n_app_last_n {A} n (a b : list A) :
  last_n n (last_n n a ++ b) = last_n n (a ++ b).
Proof.
  unfold last_n. destruct (decide (length a ≤ n)%nat) as [Hle|Hgt].
  - by replace (length a - n)%nat with 0%nat by lia.
  - rewrite !length_app, length_drop.
    replace (length a - (length a - n) + length b - n)%nat with (length b) by lia.
    replace (length a + length b - n)%nat
      with ((length a - n) + length b)%nat by lia.
    rewrite <- drop_drop. f_equal.
    rewrite drop_app_le by lia. done.
Qed.

Lemma length_last_n {A} n (l : list A) : (length (last_n n l) ≤ n)%nat.
Proof. unfold last_n. rewrite length_drop. lia. Qed.

Lemma push_reading_last_n reading h :
  (length h ≤ buffer_size)%nat →
  push_reading reading h = last_n buffer_size (h ++ [reading]).
Proof.
  intros Hlen. unfold push_reading, last_n. rewrite length_app. simpl length.
  destruct (Nat.ltb_spec buffer_size (length h + 1)) as [Hfull|Hroom].
  - replace (length h + 1 - buffer_size)%nat with 1%nat by lia.
    by destruct (h ++ [reading]).
  - by replace (length h + 1 - buffer_size)%nat with 0%nat by lia.
Qed.

Lemma get_cpu_percent_history (r : result Q) w :
  cpu_history (cpu_monitor (get_cpu_percent r w).2)
  = match r with
    | Ok reading => push_reading reading (cpu_history (cpu_monitor w))
    | Err _ => cpu_history (cpu_monitor w)
    end.
Proof.
  destruct r as [reading|e].
  - by rewrite get_cpu_percent_ok.
  - by rewrite get_cpu_percent_err.
Qed.

Lemma sample_all_cons_state (r : result Q) reads w :
  (sample_all (r :: reads) w).2 = (sample_all reads (get_cpu_percent r w).2).2.
Proof.
  simpl. rewrite (bind_returns _ _ _ _ _ (get_cpu_percent_returns r w)).
  unfold mbind, M_bind.
  by destruct (sample_all reads _) as [[vs|e|] w'].
Qed.

Lemma sample_all_history reads : ∀ w,
  (length (cpu_history (cpu_monitor w)) ≤ buffer_size)%nat →
  cpu_history (cpu_monitor (sample_all reads w).2)
  = last_n buffer_size (cpu_history (cpu_monitor w) ++ successes reads).
Proof.
  induction reads as [|r reads IH]; intros w Hlen.
  - simpl. rewrite app_nil_r. unfold last_n.
    by replace (length (cpu_history (cpu_monitor w)) - buffer_size)%nat
      with 0%nat by lia.
  - rewrite sample_all_cons_state, IH; rewrite get_cpu_percent_history.
    + destruct r as [reading|e]; [|done].
      rewrite push_reading_last_n by done. simpl.
      rewrite last_n_app_last_n. by rewrite <- app_assoc.
    + destruct r as [reading|e]; [|done].
      rewrite push_reading_last_n by done. apply length_last_n.
Qed.

(** X1. After any sequence of OS reads on a fresh monitor, the stored window
    holds the last ten successful readings, oldest first (all of them when
    there were fewer than ten); a failed read contributes nothing, and the
    window never holds more than [buffer_size] entries. *)
Theorem window_holds_last_successes (reads : list (result Q)) :
  cpu_history (cpu_monitor (sample_all reads initial_world).2)
  = last_n buffer_size (successes reads)
  ∧ (length (cpu_history (cpu_monitor (sample_all reads initial_world).2))
     ≤ buffer_size)%nat.
Proof.
  rewrite sample_all_history by (simpl; unfold buffer_size; lia).
  split; [done|]. apply length_last_n.
Qed.

End Window.

(** ** Frames pushed by a session *)

Section SessionFrames.

Context (ws : handle).

Lemma sent_to_snoc_other ws' tr e :
  (∀ x data, e ≠ SendJson x data) →
  sent_to ws' (tr ++ [e]) = sent_to ws' tr.
Proof.
  intros He. unfold sent_to. rewrite omap_app. simpl.
  destruct e; rewrite ?app_nil_r; try done. by destruct (He ws0 data).
Qed.

Lemma sent_to_snoc_send ws' tr x data :
  sent_to ws' (tr ++ [SendJson x data])
  = sent_to ws' tr ++ (if decide (ws' = x) then [data] else []).
Proof.
  unfold sent_to. rewrite omap_app. simpl.
  destruct (decide (x = ws')) as [->|Hne].
  - by rewrite decide_True.
  - by rewrite decide_False.
Qed.

Lemma get_cpu_percent_sent (r : result Q) w ws' :
  sent_to ws' (trace (get_cpu_percent r w).2) = sent_to ws' (trace w).
Proof.
  destruct r as [reading|e].
  - by rewrite get_cpu_percent_ok.
  - rewrite get_cpu_percent_err. simpl. by apply sent_to_snoc_other.
Qed.

(** One iteration: the frame it pushes, if any, and the sampler range. *)
Lemma session_step_frames t w :
  ∃ v w', session_step ws t w
          = (Returns (if leaves_loop t then Break else Continue), w')
    ∧ (in_range (current_cpu (cpu_monitor w)) →
       in_range v ∧ in_range (current_cpu (cpu_monitor w')))
    ∧ ∀ ws', sent_to ws' (trace w')
             = sent_to ws' (trace w)
               ++ (if leaves_loop t then []
                   else if decide (ws' = ws) then [tick_frame v t] else []).
Proof.
  unfold session_step, try_except.
  rewrite (bind_returns _ _ _ _ _ (get_cpu_percent_returns (os_cpu t) w)).
  pose proof (get_cpu_percent_in_range (os_cpu t) w) as Hrange.
  pose proof (get_cpu_percent_sent (os_cpu t) w) as Hsent.
  set (w1 := (get_cpu_percent (os_cpu t) w).2) in *. clearbody w1.
  exists (Py.round1 (current_cpu (cpu_monitor w1))).
  unfold leaves_loop, tick_frame.
  destruct (os_per_cpu t) as [per_cpu|e1], (os_memory t) as [mem|e2],
    (ws_link t); run;
    (eexists; split; [reflexivity|]; split;
     [intros Hw; split; [apply round1_bounds|]; by apply Hrange
     |intros ws'; simpl;
      rewrite ?sent_to_snoc_other by done;
      rewrite ?sent_to_snoc_send, ?Hsent, ?app_nil_r; done]).
Qed.

Lemma session_loop_frames ticks : ∀ w,
  ∃ cpus w', (session_loop ws ticks w).2 = w'
    ∧ length cpus = length (streamed ticks)
    ∧ (in_range (current_cpu (cpu_monitor w)) → Forall in_range cpus)
    ∧ ∀ ws', sent_to ws' (trace w')
             = sent_to ws' (trace w)
               ++ (if decide (ws' = ws)
                   then zip_with tick_frame cpus (streamed ticks) else []).
Proof.
  induction ticks as [|t ticks IH]; intros w; simpl.
  - exists [], w. repeat split; [done|]. intros ws'.
    destruct (decide _); by rewrite app_nil_r.
  - destruct (closed (ws_link t)) eqn:Hclosed.
    + assert (leaves_loop t = true) as ->.
      { unfold leaves_loop. by destruct (ws_link t). }
      exists [], w. repeat split; [done|]. intros ws'.
      destruct (decide _); by rewrite app_nil_r.
    + destruct (session_step_frames t w) as (v & w1 & Hstep & Hrange & Hsent).
      rewrite (bind_returns _ _ _ _ _ Hstep).
      destruct (leaves_loop t); simpl.
      * exists [], w1. repeat split; [done|]. intros ws'.
        rewrite Hsent. destruct (decide _); by rewrite ?app_nil_r.
      * destruct (IH w1) as (cpus & w2 & Hloop & Hlen & Hall & Hsent2).
        exists (v :: cpus), w2. split; [done|]. split; [simpl; by rewrite Hlen|].
        split.
        -- intros Hw. destruct (Hrange Hw). constructor; [done|]. by apply Hall.
        -- intros ws'. rewrite Hsent2, Hsent.
           destruct (decide (ws' = ws)); simpl; by rewrite <- ?app_assoc, ?app_nil_r.
Qed.

Lemma cpu_websocket_handler_state ticks w :
  ∃ w1, (cpu_websocket_handler ws (Ok ()) ticks w).2
        = (if existsb leaves_loop ticks
           then emit (Stdout "Client disconnected from CPU WebSocket")
                  (set_connected_websockets (connected_websockets w1 ∖ {[ws]})
                     (emit (SetDiscard ws) w1))
           else w1)
    ∧ w1 = (session_loop ws ticks
              (set_connected_websockets ({[ws]} ∪ connected_websockets w)
                 (emit (SetAdd ws)
                    (emit (Stdout "Client connected to CPU WebSocket") w)))).2.
Proof.
  unfold cpu_websocket_handler, registry_add, registry_discard. run.
  match goal with |- context [session_loop ws ticks ?w0] =>
    destruct (session_loop_spec ws ticks w0) as (w1 & Hloop & _)
  end.
  rewrite Hloop. exists w1. split; [|done].
  by destruct (existsb leaves_loop ticks).
Qed.

(** X3. A session started in a state whose stored smoothed value is a
    percentage pushes one telemetry frame per iteration that comes before
    the one leaving the loop, in order, each built from that iteration's
    per-core and memory readings and clock and from a smoothed value within
    [0,100]; it writes nothing else to its own socket and nothing at all to
    any other socket. *)
Theorem session_pushes_one_frame_per_tick ticks w :
  in_range (current_cpu (cpu_monitor w)) →
  ∃ cpus,
    length cpus = length (streamed ticks)
    ∧ Forall in_range cpus
    ∧ ∀ ws', sent_to ws' (trace (cpu_websocket_handler ws (Ok ()) ticks w).2)
             = sent_to ws' (trace w)
               ++ (if decide (ws' = ws)
                   then zip_with tick_frame cpus (streamed ticks) else []).
Proof.
  intros Hw.
  destruct (cpu_websocket_handler_state ticks w) as (w1 & Hstate & Hw1).
  match type of Hw1 with _ = (session_loop ws ticks ?w0).2 =>
    destruct (session_loop_frames ticks w0) as (cpus & w1' & Hloop & Hlen & Hall & Hsent)
  end.
  rewrite <- Hw1 in Hloop. subst w1'.
  exists cpus. split; [done|]. split; [by apply Hall|].
  intros ws'. rewrite Hstate.
  assert (sent_to ws' (trace w1)
          = sent_to ws' (trace w)
            ++ (if decide (ws' = ws)
                then zip_with tick_frame cpus (streamed ticks) else [])) as Hw1sent.
  { rewrite Hsent. simpl. by rewrite !sent_to_snoc_other by done. }
  destruct (existsb leaves_loop ticks); [|done].
  simpl. by rewrite !sent_to_snoc_other by done.
Qed.


(** X5. A session whose handle was not registered before it started leaves,
    once it has terminated, exactly the registry it found: registration and
    cleanup cancel out, whatever happened in between. *)
Theorem terminated_session_restores_registry ticks w :
  ws ∉ connected_websockets w →
  session_state_of (cpu_websocket_handler ws (Ok ()) ticks w) = SessionClosed →
  connected_websockets (cpu_websocket_handler ws (Ok ()) ticks w).2
  = connected_websockets w.
Proof.
  intros Hfresh.
  destruct (cpu_websocket_handler_spec ws ticks w) as (w' & Hrun & Hpost).
  rewrite Hrun. unfold session_state_of. simpl.
  destruct (existsb leaves_loop ticks); [|done]. intros _.
  destruct Hpost as [-> _]. set_solver.
Qed.

End SessionFrames.

Lemma session_pushes_one_frame_per_tick_witness :
  ∃ cpus,
    length cpus = 2%nat
    ∧ Forall in_range cpus
    ∧ ∀ ws', sent_to ws'
               (trace (cpu_websocket_handler 1%positive (Ok ())
                         [Tick Open (Ok 50) (Ok [40; 60]) (Ok 30) 1;
                          Tick Open (Err (Exception "cpu read failed")) (Ok [41; 61]) (Ok 31) 2;
                          Tick Closed (Ok 50) (Ok [40; 60]) (Ok 30) 3]
                         initial_world).2)
             = sent_to ws' (trace initial_world)
               ++ (if decide (ws' = 1%positive)
                   then zip_with tick_frame cpus
                          [Tick Open (Ok 50) (Ok [40; 60]) (Ok 30) 1;
                           Tick Open (Err (Exception "cpu read failed")) (Ok [41; 61]) (Ok 31) 2]
                   else []).
Proof.
  apply (session_pushes_one_frame_per_tick 1%positive
           [Tick Open (Ok 50) (Ok [40; 60]) (Ok 30) 1;
            Tick Open (Err (Exception "cpu read failed")) (Ok [41; 61]) (Ok 31) 2;
            Tick Closed (Ok 50) (Ok [40; 60]) (Ok 30) 3] initial_world).
  unfold in_range. simpl. lra.
Defined.


Lemma terminated_session_restores_registry_witness :
  connected_websockets
    (cpu_websocket_handler 3%positive (Ok ())
       [Tick Open (Ok 50) (Ok [40; 60]) (Ok 30) 1;
        Tick Broken (Ok 50) (Ok [40; 60]) (Ok 30) 2]
       (set_connected_websockets {[1%positive]} initial_world)).2
  = connected_websockets (set_connected_websockets {[1%positive]} initial_world).
Proof.
  apply (terminated_session_restores_registry 3%positive
           [Tick Open (Ok 50) (Ok [40; 60]) (Ok 30) 1;
            Tick Broken (Ok 50) (Ok [40; 60]) (Ok 30) 2]
           (set_connected_websockets {[1%positive]} initial_world)).
  - simpl. set_solver.
  - reflexivity.
Defined.

(** ** Broadcasts *)

Section BroadcastMore.

Context (conn : handle → link).

(** X6. A broadcast never adds a registration; after it no registered
    subscriber is one whose send raises; and a second broadcast under the
    same connection states removes nobody. *)
Theorem broadcast_cleans_registry event event' w :
  let r1 := broadcast_event conn event w in
  let r2 := broadcast_event conn event' r1.2 in
  connected_websockets r1.2 ⊆ connected_websockets w
  ∧ filter (λ ws, conn ws = Broken) (connected_websockets r1.2) = ∅
  ∧ connected_websockets r2.2 = connected_websockets r1.2.
Proof.
  destruct (broadcast_event_spec conn event w) as (w1 & Hrun1 & Hreg1 & _).
  simpl. rewrite Hrun1. simpl.
  destruct (broadcast_event_spec conn event' w1) as (w2 & Hrun2 & Hreg2 & _).
  rewrite Hrun2. simpl. rewrite Hreg2, Hreg1.
  split; [|split].
  - intros ws. rewrite elem_of_filter. naive_solver.
  - apply set_eq. intros ws. rewrite !elem_of_filter. set_solver.
  - apply set_eq. intros ws. rewrite !elem_of_filter. naive_solver.
Qed.

End BroadcastMore.

(** ** The telemetry paths and the workload state *)

(** X8. Neither a streaming session (whatever its handshake and its
    iterations), nor a one-shot request, nor a broadcast changes the active
    flag, the recorded thread, the loaded module or the attached notifier,
    and none of them starts a thread. *)
Theorem telemetry_paths_leave_workload_alone
    ws handshake ticks os_cpu os_per_cpu os_memory conn event w :
  same_workload w (cpu_websocket_handler ws handshake ticks w).2
  ∧ same_workload w (cpu_http_handler os_cpu os_per_cpu os_memory w).2
  ∧ same_workload w (broadcast_event conn event w).2.
Proof.
  split; [apply frame_cpu_websocket_handler|].
  split; [apply frame_cpu_http_handler|apply frame_broadcast_event].
Qed.

(** ** The one-shot request *)

(** X9. A one-shot request changes the state exactly as one sampling call
    does, also when it fails; it answers 200 with the smoothed value, the
    rounded per-core values and the rounded memory percentage when the
    per-core and memory reads succeed, and it raises the error of the first
    of these two reads that fails. A failing aggregate read never makes it
    fail. *)
Theorem one_shot_request_outcome os_cpu os_per_cpu os_memory w :
  let r := cpu_http_handler os_cpu os_per_cpu os_memory w in
  r.2 = (get_cpu_percent os_cpu w).2
  ∧ r.1 = match os_per_cpu, os_memory with
          | Ok per_cpu, Ok memory_percent =>
              Returns (json_response
                (JDict [("cpu", JFloat (Py.round1 (current_cpu (cpu_monitor r.2))));
                        ("per_cpu", JList (map (λ c, JFloat (Py.round1 c)) per_cpu));
                        ("memory_percent", JFloat (Py.round1 memory_percent))])
                200)
          | Err e, _ => Raises e
          | Ok _, Err e => Raises e
          end.
Proof.
  unfold cpu_http_handler.
  rewrite (bind_returns _ _ _ _ _ (get_cpu_percent_returns os_cpu w)).
  by destruct os_per_cpu, os_memory.
Qed.

(** * The workloads *)

(** ** Bubble sort *)

Section BubbleSort.

Import TestWorkloads.

Implicit Types (arr l : list Z) (j k : nat).

Lemma compare_swap_head x y l :
  compare_swap (x :: y :: l) 0 = Some (Z.min x y :: Z.max x y :: l).
Proof.
  unfold compare_swap. simpl.
  destruct (Z.ltb_spec y x).
  - by rewrite Z.min_r, Z.max_l by lia.
  - by rewrite Z.min_l, Z.max_r by lia.
Qed.

Lemma compare_swap_cons x l j :
  compare_swap (x :: l) (S j) = cons x <$> compare_swap l j.
Proof.
  unfold compare_swap. simpl.
  destruct (l !! j) as [a|]; [|done].
  destruct (l !! (j + 1)%nat) as [b|]; [|done].
  by destruct (b <? a)%Z.
Qed.

Lemma for_range_compare_swap_cons x k : ∀ j l,
  for_range (S j) k compare_swap (x :: l)
  = cons x <$> for_range j k compare_swap l.
Proof.
  induction k as [|k IH]; intros j l; simpl; [done|].
  rewrite compare_swap_cons.
  destruct (compare_swap l j) as [l'|]; simpl; [apply IH|done].
Qed.

Lemma for_range_succ {St} start count (body : St → nat → option St) s :
  for_range start (S count) body s
  = body s start ≫= for_range (S start) count body.
Proof. simpl. by destruct (body s start). Qed.

(** The inner loop is one pass of [bubble]. *)
Lemma inner_loop_bubble k : ∀ l,
  (k < length l)%nat → for_range 0 k compare_swap l = Some (bubble k l).
Proof.
  induction k as [|k IH]; intros l Hlen; [by destruct l|].
  destruct l as [|x [|y l]]; simpl in Hlen; [lia|lia|].
  simpl for_range. rewrite compare_swap_head.
  rewrite for_range_compare_swap_cons, IH by (simpl; lia). done.
Qed.

Lemma bubble_app k : ∀ l tail,
  (k < length l)%nat → bubble k (l ++ tail) = bubble k l ++ tail.
Proof.
  induction k as [|k IH]; intros l tail Hlen; [by destruct l|].
  destruct l as [|x [|y l]]; simpl in Hlen; [lia|lia|].
  simpl. f_equal. apply (IH (Z.max x y :: l)). simpl. lia.
Qed.

(** A full pass moves a largest element to the end. *)
Lemma bubble_full : ∀ l x,
  ∃ front mx, bubble (length l) (x :: l) = front ++ [mx]
              ∧ Forall (λ a, (a ≤ mx)%Z) front
              ∧ (x ≤ mx)%Z
              ∧ front ++ [mx] ≡ₚ x :: l.
Proof.
  induction l as [|y l IH]; intros x.
  - exists [], x. simpl. split; [done|]. split; [constructor|]. split; [lia|done].
  - destruct (IH (Z.max x y)) as (front & mx & Hrun & Hall & Hmx & Hperm).
    exists (Z.min x y :: front), mx. simpl. rewrite Hrun.
    split; [done|]. split; [constructor; [lia|done]|]. split; [lia|].
    simpl. rewrite Hperm.
    destruct (Z.le_ge_cases x y).
    + by rewrite Z.min_l, Z.max_r by lia.
    + rewrite Z.min_r, Z.max_l by lia. apply Permutation_swap.
Qed.

(** The outer loop, [c] passes before the end: the tail is already sorted
    and dominates the front. *)
Lemma outer_loop_sorts c : ∀ front tail,
  length front = c →
  StronglySorted Z.le tail →
  Forall (λ a, Forall (λ b, (a ≤ b)%Z) tail) front →
  ∃ sorted,
    for_range (length tail) c
      (λ arr i, for_range 0 (length (front ++ tail) - i - 1) compare_swap arr)
      (front ++ tail)
    = Some sorted
    ∧ StronglySorted Z.le sorted
    ∧ sorted ≡ₚ front ++ tail.
Proof.
  induction c as [|c IH]; intros front tail Hlen Hsorted Hdom.
  - destruct front; [|done]. exists tail. by repeat split.
  - destruct front as [|x l]; [done|]. simpl in Hlen.
    assert (length l = c) as Hl by lia.
    rewrite for_range_succ. cbv beta.
    replace (length ((x :: l) ++ tail) - length tail - 1)%nat with (length l)
      by (rewrite length_app; simpl; lia).
    rewrite inner_loop_bubble by (rewrite length_app; simpl; lia).
    rewrite (bubble_app (length l) (x :: l) tail) by (simpl; lia).
    destruct (bubble_full l x) as (front' & mx & -> & Hall & Hmx & Hperm).
    assert (length front' = c) as Hlen'.
    { apply Permutation_length in Hperm. rewrite length_app in Hperm.
      simpl in Hperm. lia. }
    assert (mx ∈ x :: l) as Hin.
    { rewrite <- Hperm. set_solver. }
    assert (Forall (λ b, (mx ≤ b)%Z) tail) as Hmxtail.
    { by apply (proj1 (Forall_forall _ _) Hdom). }
    destruct (IH front' (mx :: tail) Hlen') as (sorted & Hrun & Hs & Hp).
    + by constructor.
    + apply Forall_forall. intros a Ha. constructor.
      * by apply (proj1 (Forall_forall _ _) Hall).
      * apply (proj1 (Forall_forall _ _) Hdom). rewrite <- Hperm. set_solver.
    + exists sorted. rewrite <- app_assoc. cbn [mbind option_bind app].
      replace (length (x :: l ++ tail)) with (length (front' ++ mx :: tail))
        by (simpl; rewrite !length_app; simpl; lia).
      change (S (length tail)) with (length (mx :: tail)).
      rewrite Hrun. split; [done|]. split; [done|].
      rewrite Hp. change (x :: l ++ tail) with ((x :: l) ++ tail).
      rewrite <- Hperm, <- app_assoc. done.
Qed.

(** X12. Whatever array is drawn, the two loops of the bubble sort never
    index out of range, and they leave the array sorted in non-decreasing
    order and holding the values it started with, each as often as
    before. *)
Theorem bubble_sort_workload_sorts arr :
  ∃ sorted, bubble_sort_workload arr = Some sorted
            ∧ Sorted Z.le sorted
            ∧ sorted ≡ₚ arr.
Proof.
  destruct (outer_loop_sorts (length arr) arr [] eq_refl) as (sorted & Hrun & Hs & Hp).
  - constructor.
  - apply Forall_forall. intros; constructor.
  - exists sorted. unfold bubble_sort_workload.
    rewrite app_nil_r in Hrun, Hp. simpl in Hrun. rewrite Hrun.
    split; [done|]. split; [by apply StronglySorted_Sorted|done].
Qed.

End BubbleSort.

(** ** Primes by trial division *)

Section Primes.

Import TestWorkloads.

Lemma elem_of_range a b x : x ∈ range a b ↔ (a ≤ x < b)%Z.
Proof.
  unfold range. rewrite list_elem_of_fmap. split.
  - intros (k & -> & Hk%elem_of_seq). lia.
  - intros Hx. exists (Z.to_nat (x - a)). split; [lia|].
    apply elem_of_seq. lia.
Qed.

Lemma strongly_sorted_seq j n : StronglySorted lt (seq j n).
Proof.
  revert j. induction n as [|n IH]; intros j; simpl; constructor; [apply IH|].
  apply Forall_forall. intros k Hk%elem_of_seq. lia.
Qed.

Lemma strongly_sorted_map {A B} (f : A → B) (R1 : relation A) (R2 : relation B) l :
  (∀ x y, R1 x y → R2 (f x) (f y)) →
  StronglySorted R1 l → StronglySorted R2 (map f l).
Proof.
  intros Hf. induction 1 as [|x l Hl IH Hx]; simpl; constructor; [done|].
  apply Forall_forall. intros y (z & -> & Hz)%list_elem_of_fmap.
  apply Hf. by apply (proj1 (Forall_forall _ _) Hx).
Qed.

Lemma strongly_sorted_range a b : StronglySorted Z.lt (range a b).
Proof.
  unfold range. eapply (strongly_sorted_map _ lt); [|apply strongly_sorted_seq].
  intros; lia.
Qed.

Lemma strongly_sorted_filter {A} (R : relation A) (P : A → Prop)
    `{∀ x, Decision (P x)} l :
  StronglySorted R l → StronglySorted R (filter P l).
Proof.
  induction 1 as [|x l Hl IH Hx]; [constructor|].
  rewrite filter_cons. destruct (decide (P x)); [|done].
  constructor; [done|]. apply Forall_forall.
  intros y [_ Hy]%list_elem_of_filter.
  by apply (proj1 (Forall_forall _ _) Hx).
Qed.

(** Appending the selected items one by one is filtering. *)
Lemma foldl_select {A} (p : A → bool) l : ∀ acc,
  foldl (λ acc i, if p i then acc ++ [i] else acc) acc l
  = acc ++ filter (λ i, p i = true) l.
Proof.
  induction l as [|x l IH]; intros acc; simpl.
  - by rewrite app_nil_r.
  - rewrite IH, filter_cons. destruct (p x) eqn:Hp.
    + rewrite decide_True by done. by rewrite <- app_assoc.
    + by rewrite decide_False by done.
Qed.

(** A composite number has a divisor between 2 and its square root. *)
Lemma small_divisor n d :
  (1 < d < n)%Z → (d | n)%Z →
  ∃ m, (2 ≤ m ≤ Z.sqrt n)%Z ∧ (m | n)%Z.
Proof.
  intros Hd [q Hq].
  assert (1 < q)%Z as Hq1 by nia.
  pose proof (Z.sqrt_spec n ltac:(lia)) as Hs. simpl in Hs.
  pose proof (Z.sqrt_nonneg n) as Hs0.
  set (s := Z.sqrt n) in *. unfold Z.succ in Hs.
  destruct (Z.le_ge_cases d q).
  - exists d. split; [|by exists q].
    split; [lia|]. apply Z.nlt_ge. intros Hgt. nia.
  - exists q. split; [|exists d; lia].
    split; [lia|]. apply Z.nlt_ge. intros Hgt. nia.
Qed.

Lemma is_prime_spec n : is_prime n = true ↔ Z.prime n.
Proof.
  unfold is_prime. destruct (Z.ltb_spec n 2) as [Hsmall|Hbig].
  - split; [done|]. intros [Hp _]. lia.
  - rewrite forallb_forall. split.
    + intros Hno. split; [lia|].
      intros d Hd Hdiv.
      destruct (small_divisor n d Hd Hdiv) as (m & Hm & Hmdiv).
      specialize (Hno m). rewrite <- list_elem_of_In, elem_of_range in Hno.
      specialize (Hno ltac:(lia)).
      apply negb_true_iff, Z.eqb_neq in Hno.
      apply Hno, Z.mod_divide; [lia|done].
    + intros Hp i Hi. rewrite <- list_elem_of_In, elem_of_range in Hi.
      destruct Hp as [_ Hp].
      apply negb_true_iff, Z.eqb_neq. intros Hmod.
      apply (Hp i).
      * pose proof (Z.sqrt_lt_lin n ltac:(lia)). lia.
      * apply Z.mod_divide; [lia|done].
Qed.

(** X13. With the square root taken exactly, the trial division of
    [is_prime] decides primality: it answers True on the primes and False
    on every other integer, negative numbers, 0 and 1 included. *)
Theorem is_prime_decides_primality n :
  (Z.prime n → is_prime n = true) ∧ (¬ Z.prime n → is_prime n = false).
Proof.
  pose proof (is_prime_spec n) as Hspec. split; [tauto|].
  intros Hn. destruct (is_prime n); [tauto|done].
Qed.

Lemma heavy_computation_workload_filter iterations :
  heavy_computation_workload iterations
  = filter (λ i, is_prime i = true) (range 0 iterations).
Proof. unfold heavy_computation_workload. by rewrite foldl_select. Qed.

(** X14. With the square root taken exactly, the list returned by the heavy
    computation holds exactly the primes below [iterations], in strictly
    increasing order (so each once); it is empty when [iterations] is at
    most 2. *)
Theorem heavy_computation_workload_primes iterations :
  (∀ x, x ∈ heavy_computation_workload iterations
        ↔ (0 ≤ x < iterations)%Z ∧ Z.prime x)
  ∧ StronglySorted Z.lt (heavy_computation_workload iterations)
  ∧ ((iterations ≤ 2)%Z → heavy_computation_workload iterations = []).
Proof.
  rewrite heavy_computation_workload_filter. split; [|split].
  - intros x. rewrite list_elem_of_filter, elem_of_range.
    pose proof (is_prime_spec x). tauto.
  - apply strongly_sorted_filter, strongly_sorted_range.
  - intros Hsmall. apply elem_of_nil_inv. intros x.
    rewrite list_elem_of_filter, elem_of_range.
    intros [[Hp _]%is_prime_spec ?]. lia.
Qed.

End Primes.

(** ** Fibonacci *)

Section Fibonacci.

Import TestWorkloads.

Lemma fib_step k : fib (S (S k)) = (fib (S k) + fib k)%Z.
Proof. reflexivity. Qed.

Lemma fib_nonneg_pair k : (0 ≤ fib k)%Z ∧ (0 ≤ fib (S k))%Z.
Proof.
  induction k as [|k [IH0 IH1]]; [simpl; lia|].
  split; [done|]. rewrite fib_step. lia.
Qed.

Lemma fib_succ_le k : (fib k ≤ fib (S k))%Z.
Proof.
  destruct k as [|k]; [simpl; lia|].
  rewrite fib_step. pose proof (fib_nonneg_pair k). lia.
Qed.

Lemma fib_mono i j : (i ≤ j)%nat → (fib i ≤ fib j)%Z.
Proof.
  induction 1 as [|j Hij IH]; [lia|].
  pose proof (fib_succ_le j). lia.
Qed.

Lemma foldl_collect {A B} (f : A → B) l : ∀ acc,
  foldl (λ acc i, acc ++ [f i]) acc l = acc ++ map f l.
Proof.
  induction l as [|x l IH]; intros acc; simpl.
  - by rewrite app_nil_r.
  - rewrite IH. by rewrite <- app_assoc.
Qed.

Lemma fibonacci_workload_map n :
  fibonacci_workload n = map (λ i, fib (Nat.min i 30)) (seq 0 (Z.to_nat n)).
Proof. unfold fibonacci_workload. by rewrite foldl_collect. Qed.

Lemma fib_30 : fib 30 = 832040%Z.
Proof. vm_compute. reflexivity. Qed.

(** X15. The Fibonacci workload returns one number per index below [n]
    (none when [n] is not positive); the numbers never decrease along the
    list, none is negative and, because the argument is capped at 30, none
    exceeds fib(30) = 832040. *)
Theorem fibonacci_workload_capped n :
  length (fibonacci_workload n) = Z.to_nat n
  ∧ StronglySorted Z.le (fibonacci_workload n)
  ∧ Forall (λ v, (0 ≤ v ≤ 832040)%Z) (fibonacci_workload n).
Proof.
  rewrite fibonacci_workload_map. split; [|split].
  - by rewrite length_map, length_seq.
  - eapply (strongly_sorted_map _ lt); [|apply strongly_sorted_seq].
    intros i j Hij. apply fib_mono. lia.
  - apply Forall_forall. intros v (i & -> & _)%list_elem_of_fmap.
    rewrite <- fib_30. split.
    + apply fib_nonneg_pair.
    + apply fib_mono. lia.
Qed.

End Fibonacci.

(** ** Calibrated workloads *)

Section Calibrated.

Import TestWorkloads.

Lemma start_threads_spec can_start work count : ∀ next threads,
  start_threads can_start work next count threads
  = match first_failure can_start next count with
    | None => (map (λ t, Start t work) (seq next count),
               Some (threads ++ seq next count))
    | Some t => (map (λ t, Start t work) (seq next (t - next)), None)
    end
  ∧ match first_failure can_start next count with
    | None => True
    | Some t => (next ≤ t < next + count)%nat
    end.
Proof.
  induction count as [|count IH]; intros next threads; simpl.
  - by rewrite app_nil_r.
  - destruct (can_start next).
    + destruct (IH (S next) (threads ++ [next])) as [-> Hrange].
      destruct (first_failure can_start (S next) count) as [t|].
      * split; [|lia].
        replace (t - next)%nat with (S (t - S next)) by lia. done.
      * split; [|done]. by rewrite <- app_assoc.
    + split; [|lia]. by rewrite Nat.sub_diag.
Qed.

Lemma started_app a b : started (a ++ b) = started a ++ started b.
Proof. apply omap_app. Qed.

Lemma joined_app a b : joined (a ++ b) = joined a ++ joined b.
Proof. apply omap_app. Qed.

Lemma started_starts work l : started (map (λ t, Start t work) l) = l.
Proof. induction l as [|t l IH]; [done|exact (f_equal (cons t) IH)]. Qed.

Lemma joined_starts work l : joined (map (λ t, Start t work) l) = [].
Proof. induction l as [|t l IH]; [done|exact IH]. Qed.

Lemma started_joins l : started (map Join l) = [].
Proof. induction l as [|t l IH]; [done|exact IH]. Qed.

Lemma joined_joins l : joined (map Join l) = l.
Proof. induction l as [|t l IH]; [done|exact (f_equal (cons t) IH)]. Qed.

(** X16. A calibrated workload for which every thread start succeeds starts
    [num_threads] threads, joins each of them, in the order started and
    after the last start, and only then reports completion and pauses two
    seconds. When the start of thread [t] fails instead, the function
    raises at once: the [t] threads already started are never joined. *)
Theorem calibrated_workload_joins_what_it_starts
    banner completed num_threads work can_start :
  let r := calibrated_workload banner completed num_threads work can_start in
  match first_failure can_start 0 num_threads with
  | None =>
      r = (Say banner
           :: map (λ t, Start t work) (seq 0 num_threads)
              ++ map Join (seq 0 num_threads)
              ++ [Say completed; Pause 2],
           Some ())
      ∧ started r.1 = seq 0 num_threads
      ∧ joined r.1 = seq 0 num_threads
  | Some t =>
      r.2 = None
      ∧ (t < num_threads)%nat
      ∧ started r.1 = seq 0 t
      ∧ joined r.1 = []
  end.
Proof.
  unfold calibrated_workload.
  destruct (start_threads_spec can_start work num_threads 0 []) as [-> Hrange].
  destruct (first_failure can_start 0 num_threads) as [t|]; simpl.
  - rewrite Nat.sub_0_r. split; [done|]. split; [lia|].
    change (started (Say banner :: ?l)) with (started l).
    change (joined (Say banner :: ?l)) with (joined l).
    by rewrite started_starts, joined_starts.
  - split; [done|].
    change (started (Say banner :: ?l)) with (started l).
    change (joined (Say banner :: ?l)) with (joined l).
    rewrite !started_app, !joined_app.
    rewrite started_starts, joined_starts, started_joins, joined_joins.
    split; by rewrite ?app_nil_r.
Qed.

End Calibrated.

(** ** The plot data *)

Section Plot.

Import CpuMonitorPlot.







End Plot.

(** ** The grid traversal *)

Section Pathfinding.

Import TestWorkloads.

Context (grid_size : Z).

Implicit Types (c n : Z * Z) (visited v : gset (Z * Z)) (queue : list (Z * Z)).

Lemma elem_of_cells x y :
  (x, y) ∈ cells grid_size ↔ (0 ≤ x < grid_size)%Z ∧ (0 ≤ y < grid_size)%Z.
Proof.
  unfold cells. rewrite elem_of_list_to_set, list_elem_of_bind. split.
  - intros (x' & (y' & Hxy & Hy)%list_elem_of_bind & Hx).
    apply list_elem_of_singleton in Hxy. inversion Hxy; subst.
    by rewrite <- !elem_of_range.
  - intros [Hx Hy]. exists x. rewrite elem_of_range. split; [|done].
    apply list_elem_of_bind. exists y. rewrite elem_of_range. split; [|done].
    by apply list_elem_of_singleton.
Qed.

Lemma elem_of_neighbours x y n :
  n ∈ neighbours grid_size x y
  ↔ ((0 ≤ n.1 < grid_size)%Z ∧ (0 ≤ n.2 < grid_size)%Z)
    ∧ (n = (x, y + 1)%Z ∨ n = (x + 1, y)%Z ∨ n = (x, y - 1)%Z ∨ n = (x - 1, y)%Z).
Proof.
  unfold neighbours. rewrite list_elem_of_filter, list_elem_of_fmap.
  split; intros [Hin Hn]; (split; [done|]).
  - destruct Hn as (d & -> & Hd). 
    repeat (apply elem_of_cons in Hd as [->|Hd]); simpl;
      rewrite ?Z.add_0_r; eauto.
    by apply elem_of_nil in Hd.
  - destruct Hn as [-> | [-> | [-> | ->]]].
    + exists (0, 1)%Z. split; [simpl; f_equal; lia|set_solver].
    + exists (1, 0)%Z. split; [simpl; f_equal; lia|set_solver].
    + exists (0, -1)%Z. split; [simpl; f_equal; lia|set_solver].
    + exists (-1, 0)%Z. split; [simpl; f_equal; lia|set_solver].
Qed.

Lemma neighbours_in_cells x y n :
  n ∈ neighbours grid_size x y → n ∈ cells grid_size.
Proof.
  intros [Hin _]%elem_of_neighbours. destruct n. by apply elem_of_cells.
Qed.

Lemma length_neighbours x y : (length (neighbours grid_size x y) ≤ 4)%nat.
Proof. unfold neighbours. etrans; [apply length_filter|]. done. Qed.

(** The loop ends, and what it has visited then is closed under
    neighbours. *)
Lemma bfs_terminates fuel : ∀ visited queue,
  visited ⊆ cells grid_size →
  (∀ c, c ∈ queue → c ∈ cells grid_size) →
  (∀ c n, c ∈ visited → n ∈ neighbours grid_size c.1 c.2 →
          n ∈ visited ∨ n ∈ queue) →
  (5 * size (cells grid_size ∖ visited) + length queue < fuel)%nat →
  ∃ v, bfs fuel grid_size visited queue = Some v
       ∧ visited ⊆ v
       ∧ v ⊆ cells grid_size
       ∧ (∀ c, c ∈ queue → c ∈ v)
       ∧ (∀ c n, c ∈ v → n ∈ neighbours grid_size c.1 c.2 → n ∈ v).
Proof.
  induction fuel as [|fuel IH]; intros visited queue Hsub Hq Hclosed Hfuel; [lia|].
  destruct queue as [|[x y] queue]; simpl.
  - exists visited. repeat split; try done.
    + intros c Hc. by apply elem_of_nil in Hc.
    + intros c n Hc Hn. destruct (Hclosed c n Hc Hn) as [?|Hnil]; [done|].
      by apply elem_of_nil in Hnil.
  - simpl in Hfuel. destruct (decide ((x, y) ∈ visited)) as [Hseen|Hnew].
    + destruct (IH visited queue) as (v & Hrun & Hvis & Hv & Hqv & Hcl).
      * done.
      * intros c Hc. apply Hq. by right.
      * intros c n Hc Hn. destruct (Hclosed c n Hc Hn) as [?|Hin]; [by left|].
        apply elem_of_cons in Hin as [->|?]; [by left|by right].
      * lia.
      * exists v. repeat split; try done.
        intros c [->|?]%elem_of_cons; [by apply Hvis|by apply Hqv].
    + assert ((x, y) ∈ cells grid_size) as Hcell by (apply Hq; left).
      assert (size (cells grid_size ∖ ({[(x, y)]} ∪ visited))
              < size (cells grid_size ∖ visited))%nat as Hsize.
      { apply subset_size. set_solver. }
      pose proof (length_neighbours x y) as Hlen.
      destruct (IH ({[(x, y)]} ∪ visited) (queue ++ neighbours grid_size x y))
        as (v & Hrun & Hvis & Hv & Hqv & Hcl).
      * set_solver.
      * intros c [Hc|Hc]%elem_of_app; [apply Hq; by right|].
        by eapply neighbours_in_cells.
      * intros c n [Hc%elem_of_singleton|Hc]%elem_of_union Hn.
        -- subst c. right. apply elem_of_app. by right.
        -- destruct (Hclosed c n Hc Hn) as [?|Hin]; [left; set_solver|].
           apply elem_of_cons in Hin as [->|?]; [left; set_solver|].
           right. apply elem_of_app. by left.
      * rewrite length_app. lia.
      * exists v. repeat split; try done.
        -- set_solver.
        -- intros c [->|Hc]%elem_of_cons; [set_solver|].
           apply Hqv, elem_of_app. by left.
Qed.

(** A set closed under neighbours that holds the corner holds the grid. *)
Lemma closed_covers_grid v :
  (0, 0)%Z ∈ v →
  (∀ c n, c ∈ v → n ∈ neighbours grid_size c.1 c.2 → n ∈ v) →
  cells grid_size ⊆ v.
Proof.
  intros Hcorner Hcl.
  assert (∀ i : nat, (Z.of_nat i < grid_size)%Z → (Z.of_nat i, 0%Z) ∈ v) as Hrow.
  { induction i as [|i IH]; intros Hi; [done|].
    apply (Hcl (Z.of_nat i, 0%Z)); [apply IH; lia|].
    apply elem_of_neighbours. simpl. split; [lia|].
    right; left. f_equal. lia. }
  assert (∀ i j : nat, (Z.of_nat i < grid_size)%Z → (Z.of_nat j < grid_size)%Z →
                       (Z.of_nat i, Z.of_nat j) ∈ v) as Hall.
  { intros i j Hi. induction j as [|j IH]; intros Hj; [by apply Hrow|].
    apply (Hcl (Z.of_nat i, Z.of_nat j)); [apply IH; lia|].
    apply elem_of_neighbours. simpl. split; [lia|].
    left. f_equal. lia. }
  intros [x y] [Hx Hy]%elem_of_cells.
  rewrite <- (Z2Nat.id x), <- (Z2Nat.id y) by lia.
  apply Hall; lia.
Qed.

Lemma neighbours_empty_grid x y :
  (grid_size ≤ 0)%Z → neighbours grid_size x y = [].
Proof.
  intros Hempty. apply elem_of_nil_inv. intros n [[Hin _] _]%elem_of_neighbours. lia.
Qed.

(** X19. A negative grid size raises before the loop. For any other size
    the traversal ends: beyond some number of iterations the loop has
    emptied its queue, and the cells visited by then are the start cell
    (0, 0) and every cell of the grid, and nothing else; so a grid of
    positive size is covered entirely, and on a grid of size 0 the start
    cell is still visited. *)
Theorem pathfinding_workload_covers_grid :
  ∃ visited bound,
    (∀ fuel, (bound ≤ fuel)%nat →
             pathfinding_workload fuel grid_size
             = if (grid_size <? 0)%Z then NegativeDimensions else Done visited)
    ∧ ∀ x y, (x, y) ∈ visited
             ↔ ((0 ≤ x < grid_size)%Z ∧ (0 ≤ y < grid_size)%Z)
               ∨ (x = 0%Z ∧ y = 0%Z).
Proof.
  unfold pathfinding_workload.
  destruct (Z.le_gt_cases grid_size 0) as [Hempty|Hpos].
  - exists {[(0, 0)%Z]}, 2%nat. split.
    + intros fuel Hfuel. destruct (grid_size <? 0)%Z; [done|].
      destruct fuel as [|[|fuel]]; [lia|lia|].
      simpl. rewrite decide_False by set_solver.
      rewrite neighbours_empty_grid by done. simpl. f_equal; set_solver.
    + intros x y. rewrite elem_of_singleton. split.
      * intros Hxy. inversion Hxy. by right.
      * intros [? | [-> ->]]; [lia|done].
  - exists (cells grid_size), (5 * size (cells grid_size) + 2)%nat. split.
    + intros fuel Hfuel.
      destruct (Z.ltb_spec grid_size 0) as [?|_]; [lia|].
      destruct (bfs_terminates fuel ∅ [(0, 0)%Z]) as (v & Hrun & _ & Hv & Hq & Hcl).
      * set_solver.
      * intros c Hc%list_elem_of_singleton. subst c. apply elem_of_cells. lia.
      * set_solver.
      * replace (cells grid_size ∖ ∅) with (cells grid_size) by set_solver.
        simpl. lia.
      * rewrite Hrun. f_equal.
        apply set_eq. intros c. split; [apply Hv|].
        apply closed_covers_grid; [|done]. apply Hq. by left.
    + intros x y. rewrite elem_of_cells. split; [by left|].
      intros [? | [-> ->]]; [done|lia].
Qed.

End Pathfinding.

(** * More on the server *)

(** ** Rounding *)

Section RoundingError.




End RoundingError.

(** ** A broadcast during a session *)

Section BroadcastDuringSession.

Context (ws : handle).


End BroadcastDuringSession.

